(** * Promising Artist: the call/return protocol of [collab]

    A shallow embedding of [src/collab.ts] (with the two adapters of
    [src/figma.ts] and the unmount step of [src/react/useCollab.ts]) and the
    properties of its transaction registry, call dispatcher, proxy and return
    handling.

    One [Engine] value stands for one call of [collab]: the variables its
    closures capture ([methods], [options], [transactions],
    [nextTransactionIndex], [cleanupFunction]) together with the part of the
    host the closures act on (the promises created by the proxy, the
    reactions attached to promises returned by methods, the messages handed
    to [options.toSendMessage], the console, and the adapter's handler
    slot). *)

From stdpp Require Import base option list gmap strings pretty.

Local Open Scope string_scope.
Local Open Scope list_scope.
#[local] Set Warnings "-register-all".

(** ** Values *)

(** The JavaScript values that travel in envelopes or are thrown by
    methods. [JError message] is an instance of [Error] (or of a subclass
    such as [TypeError]) whose [message] property is [message]; every other
    constructor is a value for which [instanceof Error] is false. A number is
    carried as an integer: the engine never computes with payloads. *)
Inductive JsValue : Type :=
| JUndefined
| JNull
| JBool (b : bool)
| JNumber (n : Z)
| JString (s : string)
| JArray (items : list JsValue)
| JObject (fields : list (string * JsValue))
| JError (message : string).

(** The double quote character, for the messages that quote a name. *)
Definition dquote : string := String (Ascii.ascii_of_nat 34) EmptyString.

(** Iterating a string yields its characters one by one. *)
Fixpoint string_chars (s : string) : list JsValue :=
  match s with
  | EmptyString => []
  | String c rest => JString (String c EmptyString) :: string_chars rest
  end.

(** [...v] in an argument list: arrays and strings are iterable, the other
    values of [JsValue] are not. *)
Definition spread (v : JsValue) : option (list JsValue) :=
  match v with
  | JArray items => Some items
  | JString s => Some (string_chars s)
  | _ => None
  end.

(** Messages of the [TypeError]s the language itself raises. Their wording
    belongs to the JavaScript engine (V8's is used here); the protocol only
    relies on their being [Error] instances. *)
Definition not_iterable_message : string :=
  "Spread syntax requires ...iterable[Symbol.iterator] to be a function".
Definition not_a_function_message (callee : string) : string :=
  callee +:+ " is not a function".

(** ** Methods *)

(** What becomes of a promise returned by a method. *)
Inductive PromiseFate : Type :=
| Fulfills (newValue : JsValue)
| Rejects (reason : JsValue)
| StaysPending.

(** What one invocation of a method does, as far as the dispatcher can
    tell: it returns a value that is not a [Promise], it returns a
    [Promise], or it throws. A method is taken as a function of its
    arguments; what else it does is its own business. *)
Inductive MethodResult : Type :=
| Returns (v : JsValue)
| ReturnsPromise (fate : PromiseFate)
| Throws (thrown : JsValue).

(** A property of the [methods] object: a function, or a value that is not
    callable. The map of an engine holds every property that [in] and
    [methods[...]] can see, own or inherited. (The tables of the examples
    list own properties, and the examples use no inherited name.) *)
Inductive Property : Type :=
| PFunction (impl : list JsValue -> MethodResult)
| PData (v : JsValue).

(** ** Envelopes *)

Abbreviation TransactionID := string (only parsing).

(** [CollabMessage]: the fields of both variants side by side; a field
    that a message does not carry reads as [JUndefined] (as a missing
    property does), and [func] is only read on a call. [type] is a plain
    string, so that an envelope with an unexpected tag can be written. *)
Record CollabMessage : Type := {
  type : string;
  transactionID : TransactionID;
  func : string;
  args : JsValue;
  value : JsValue;
  ex : JsValue
}.

Definition call_message (tid : TransactionID) (prop : string) (argv : list JsValue)
  : CollabMessage :=
  {| type := "call"; transactionID := tid; func := prop; args := JArray argv;
     value := JUndefined; ex := JUndefined |}.

Definition return_value_message (tid : TransactionID) (v : JsValue) : CollabMessage :=
  {| type := "return"; transactionID := tid; func := ""; args := JUndefined;
     value := v; ex := JUndefined |}.

Definition return_ex_message (tid : TransactionID) (e : JsValue) : CollabMessage :=
  {| type := "return"; transactionID := tid; func := ""; args := JUndefined;
     value := JUndefined; ex := e |}.

(** ** Promises and transactions *)

Inductive PromiseState : Type :=
| Pending
| Fulfilled (v : JsValue)
| Rejected (reason : JsValue).

(** A promise is named by its position in the engine's list of promises. *)
Abbreviation PromiseRef := nat (only parsing).

(** The [resolve] and [reject] functions of a promise act on a pending
    promise only; on a settled one they do nothing. *)
Definition settle (p : PromiseRef) (outcome : PromiseState)
    (heap : list PromiseState) : list PromiseState :=
  match heap !! p with
  | Some Pending => <[p := outcome]> heap
  | _ => heap
  end.

(** [Transaction]: [resolvePromise] and [rejectPromise] are the two
    functions of one promise, so the record keeps the promise they belong
    to. *)
Record Transaction : Type := {
  t_transactionID : TransactionID;
  promise : PromiseRef
}.

Definition resolvePromise (t : Transaction) (v : JsValue)
    (heap : list PromiseState) : list PromiseState :=
  settle (promise t) (Fulfilled v) heap.

Definition rejectPromise (t : Transaction) (reason : JsValue)
    (heap : list PromiseState) : list PromiseState :=
  settle (promise t) (Rejected reason) heap.

(** ** Channel adapters *)

(** The adapter's slot for the incoming-message handler: [true] while the
    engine's handler is installed. A cleanup function acts on that slot. *)
Definition HandlerSlot : Type := bool.
Definition CollabCleanupFunction : Type := HandlerSlot -> HandlerSlot.

(** [CollaborationOptions]. [toHandleMessage] installs the handler and
    returns a cleanup function or nothing. [toSendMessage] is modelled by
    the engine's [sent] list: sending appends the envelope. *)
Record CollaborationOptions : Type := {
  name : string;
  toHandleMessage : HandlerSlot -> HandlerSlot * option CollabCleanupFunction
}.

(** [figma.ts]: both adapters store the handler in a global slot and
    return a cleanup that empties it. *)
Definition FigmaPluginUI : CollaborationOptions :=
  {| name := "UI";
     toHandleMessage := fun _ => (true, Some (fun _ => false)) |}.

Definition FigmaPlugin : CollaborationOptions :=
  {| name := "Plugin";
     toHandleMessage := fun _ => (true, Some (fun _ => false)) |}.

(** ** The engine *)

(** [nextTransactionIndex] is a natural number: a JavaScript number counts
    exactly as far as 2^53, which bounds the runs this model speaks of. *)
Record Engine : Type := {
  methods : gmap string Property;
  options : CollaborationOptions;
  transactions : gmap TransactionID Transaction;
  nextTransactionIndex : N;
  cleanupFunction : option CollabCleanupFunction;
  promises : list PromiseState;
  reactions : list (TransactionID * PromiseFate);
  sent : list CollabMessage;
  console : list string;
  listening : HandlerSlot
}.

(** [collab(methods, options)]: an empty register, the counter at zero, and
    the handler registered through [options.toHandleMessage]. *)
Definition collab (ms : gmap string Property) (opts : CollaborationOptions) : Engine :=
  let registration := toHandleMessage opts false in
  {| methods := ms;
     options := opts;
     transactions := ∅;
     nextTransactionIndex := 0%N;
     cleanupFunction := registration.2;
     promises := [];
     reactions := [];
     sent := [];
     console := [];
     listening := registration.1 |}.

(** Field updates. *)
Definition with_transactions (f : gmap TransactionID Transaction -> gmap TransactionID Transaction)
    (e : Engine) : Engine :=
  {| methods := methods e; options := options e;
     transactions := f (transactions e);
     nextTransactionIndex := nextTransactionIndex e;
     cleanupFunction := cleanupFunction e; promises := promises e;
     reactions := reactions e; sent := sent e; console := console e;
     listening := listening e |}.

Definition with_nextTransactionIndex (f : N -> N) (e : Engine) : Engine :=
  {| methods := methods e; options := options e;
     transactions := transactions e;
     nextTransactionIndex := f (nextTransactionIndex e);
     cleanupFunction := cleanupFunction e; promises := promises e;
     reactions := reactions e; sent := sent e; console := console e;
     listening := listening e |}.

Definition with_promises (f : list PromiseState -> list PromiseState)
    (e : Engine) : Engine :=
  {| methods := methods e; options := options e;
     transactions := transactions e;
     nextTransactionIndex := nextTransactionIndex e;
     cleanupFunction := cleanupFunction e; promises := f (promises e);
     reactions := reactions e; sent := sent e; console := console e;
     listening := listening e |}.

Definition with_reactions
    (f : list (TransactionID * PromiseFate) -> list (TransactionID * PromiseFate))
    (e : Engine) : Engine :=
  {| methods := methods e; options := options e;
     transactions := transactions e;
     nextTransactionIndex := nextTransactionIndex e;
     cleanupFunction := cleanupFunction e; promises := promises e;
     reactions := f (reactions e); sent := sent e; console := console e;
     listening := listening e |}.

Definition with_listening (f : HandlerSlot -> HandlerSlot) (e : Engine) : Engine :=
  {| methods := methods e; options := options e;
     transactions := transactions e;
     nextTransactionIndex := nextTransactionIndex e;
     cleanupFunction := cleanupFunction e; promises := promises e;
     reactions := reactions e; sent := sent e; console := console e;
     listening := f (listening e) |}.

(** [options.toSendMessage(m)]. *)
Definition toSendMessage (m : CollabMessage) (e : Engine) : Engine :=
  {| methods := methods e; options := options e;
     transactions := transactions e;
     nextTransactionIndex := nextTransactionIndex e;
     cleanupFunction := cleanupFunction e; promises := promises e;
     reactions := reactions e; sent := sent e ++ [m]; console := console e;
     listening := listening e |}.

(** [console.error(line)]. *)
Definition console_error (line : string) (e : Engine) : Engine :=
  {| methods := methods e; options := options e;
     transactions := transactions e;
     nextTransactionIndex := nextTransactionIndex e;
     cleanupFunction := cleanupFunction e; promises := promises e;
     reactions := reactions e; sent := sent e; console := console e ++ [line];
     listening := listening e |}.

(** ** The message handler *)

(** [ex instanceof Error ? ex.message : ex]. *)
Definition ex_to_send (thrown : JsValue) : JsValue :=
  match thrown with
  | JError message => JString message
  | other => other
  end.

(** [(methods as any)[message.func](...message.args)]: the property is
    read, the arguments are spread, and only then is the property called;
    calling anything but a function throws a [TypeError]. *)
Definition invoke (ms : gmap string Property) (f : string) (a : JsValue) : MethodResult :=
  match spread a with
  | None => Throws (JError not_iterable_message)
  | Some argv =>
      match ms !! f with
      | Some (PFunction impl) => impl argv
      | Some (PData _) | None =>
          Throws (JError (not_a_function_message "methods[message.func]"))
      end
  end.

(** The [call] branch. The unknown-method block sends its envelope and
    control then continues with the [try] statement below it. *)
Definition handle_call (message : CollabMessage) (e : Engine) : Engine :=
  let e1 :=
    if decide (is_Some (methods e !! func message)) then e
    else
      toSendMessage
        (return_ex_message (transactionID message)
           (JError ("Unknown method " +:+ dquote +:+ func message +:+ dquote +:+ "!")))
        (console_error
           ("Message to call unknown method " +:+ dquote +:+ func message
              +:+ dquote +:+ " arrived!") e) in
  match invoke (methods e1) (func message) (args message) with
  | ReturnsPromise fate =>
      with_reactions (fun rs => rs ++ [(transactionID message, fate)]) e1
  | Returns v =>
      toSendMessage (return_value_message (transactionID message) v) e1
  | Throws thrown =>
      toSendMessage (return_ex_message (transactionID message) (ex_to_send thrown)) e1
  end.

(** The [return] branch, once the transaction has been found. *)
Definition handle_return (message : CollabMessage) (transaction : Transaction)
    (e : Engine) : Engine :=
  let e1 :=
    match ex message with
    | JUndefined | JNull =>
        with_promises (resolvePromise transaction (value message)) e
    | reason =>
        with_promises (rejectPromise transaction reason) e
    end in
  with_transactions (delete (transactionID message)) e1.

(** The handler passed to [options.toHandleMessage]: the engine after the
    message, and the value thrown out of the handler if there is one. *)
Definition handler (message : CollabMessage) (e : Engine) : Engine * option JsValue :=
  if decide (type message = "call") then
    (handle_call message e, None)
  else if decide (type message = "return") then
    match transactions e !! transactionID message with
    | None =>
        (e, Some (JError ("Return value for unknown transaction ID "
                            +:+ transactionID message +:+ " arrived!")))
    | Some transaction => (handle_return message transaction e, None)
    end
  else
    (e, Some (JError ("Unknown message with type " +:+ type message +:+ " arrived!"))).

(** The reaction attached with [.then(...).catch(...)] to the promise a
    method returned runs when that promise settles, and sends the result. *)
Definition run_reaction (k : nat) (e : Engine) : Engine :=
  match reactions e !! k with
  | Some (tid, Fulfills newValue) =>
      toSendMessage (return_value_message tid newValue)
        (with_reactions (delete k) e)
  | Some (tid, Rejects reason) =>
      toSendMessage (return_ex_message tid (ex_to_send reason))
        (with_reactions (delete k) e)
  | Some (_, StaysPending) | None => e
  end.

(** ** The proxy *)

(** A property key: a string or a symbol (with its description). *)
Inductive PropKey : Type :=
| KString (s : string)
| KSymbol (description : string).

(** What the [get] trap hands back: the value of [cleanupFunction] as it
    is ([None] is [undefined]), or the arrow function that remotes calls to
    the method named [prop]. *)
Inductive ProxyProperty : Type :=
| PCleanup (f : option CollabCleanupFunction)
| PRemote (prop : string).

(** The [get] trap; [inr] is a thrown value. *)
Definition proxy_get (prop : PropKey) (e : Engine) : ProxyProperty + JsValue :=
  match prop with
  | KString s =>
      if decide (s = "cleanupProxy") then inl (PCleanup (cleanupFunction e))
      else inl (PRemote s)
  | KSymbol description =>
      inr (JError ("Symbol property " +:+ dquote +:+ "Symbol(" +:+ description
                     +:+ ")" +:+ dquote +:+ " is not supported."))
  end.

(** The arrow function returned by the trap, applied to [argv]: a new
    promise, a transaction registered under a freshly minted id, and the
    call envelope sent. The promise goes at the end of [promises]. *)
Definition mint (e : Engine) : TransactionID :=
  name (options e) +:+ ":" +:+ pretty (nextTransactionIndex e).

Definition remote_call (prop : string) (argv : list JsValue) (e : Engine)
  : Engine * PromiseRef :=
  let p := length (promises e) in
  let transaction := {| t_transactionID := mint e; promise := p |} in
  let e1 := with_promises (fun heap => heap ++ [Pending]) e in
  let e2 := with_nextTransactionIndex N.succ e1 in
  let e3 := with_transactions <[t_transactionID transaction := transaction]> e2 in
  (toSendMessage (call_message (t_transactionID transaction) prop argv) e3, p).

(** How the expression [proxy[prop](...argv)] completes. *)
Inductive Completion : Type :=
| ReturnedPromise (p : PromiseRef)
| ReturnedUndefined
| Thrown (thrown : JsValue).

Definition proxy_invoke (prop : PropKey) (argv : list JsValue) (e : Engine)
  : Engine * Completion :=
  match proxy_get prop e with
  | inr thrown => (e, Thrown thrown)
  | inl (PCleanup None) =>
      (e, Thrown (JError (not_a_function_message "proxy.cleanupProxy")))
  | inl (PCleanup (Some cleanup)) =>
      (with_listening cleanup e, ReturnedUndefined)
  | inl (PRemote f) =>
      let call := remote_call f argv e in (call.1, ReturnedPromise call.2)
  end.

(** [useCollab.ts]: the effect's cleanup calls [proxy.cleanupProxy()] when
    the component unmounts. *)
Definition useCollab_unmount (e : Engine) : Engine * Completion :=
  proxy_invoke (KString "cleanupProxy") [] e.

(** ** Runs of one engine *)

(** What can happen to an engine: local code uses the proxy, the adapter
    delivers an envelope, or the promise behind the [k]-th outstanding
    reaction settles. An envelope reaches the handler only while the
    handler is installed; a fault raised by the handler goes to the host
    and leaves the engine as the handler left it. A proxy call that a
    method makes while it runs is an [Invoke] just before the [Receive] of
    its call: the call branch neither reads nor writes what a proxy call
    changes, and the envelopes leave in the same order. *)
Inductive Event : Type :=
| Invoke (prop : PropKey) (argv : list JsValue)
| Receive (message : CollabMessage)
| Settled (k : nat).

Definition step (e : Engine) (ev : Event) : Engine :=
  match ev with
  | Invoke prop argv => (proxy_invoke prop argv e).1
  | Receive message => if listening e then (handler message e).1 else e
  | Settled k => run_reaction k e
  end.

Definition run (evs : list Event) (e : Engine) : Engine := foldl step e evs.

(** The transaction ids of the call envelopes an engine has sent, in the
    order they were minted. *)
Definition minted (e : Engine) : list TransactionID :=
  omap (fun m => if decide (type m = "call") then Some (transactionID m) else None)
       (sent e).


(** The id minted when the counter stands at [n]. *)
Definition label (opts : CollaborationOptions) (n : N) : TransactionID :=
  name opts +:+ ":" +:+ pretty n.

(** ** Invariant of the transaction register *)

(** What every run of an engine maintains: each transaction is filed
    under its own id and its promise is still pending, no two transactions
    hold the same promise, every registered id was minted below the current
    counter, and the ids minted so far are the labels of 0, 1, 2, ... up to
    the counter. *)
Record register_ok (e : Engine) : Prop := {
  ok_key : forall tid t,
    transactions e !! tid = Some t -> t_transactionID t = tid;
  ok_pending : forall tid t,
    transactions e !! tid = Some t -> promises e !! promise t = Some Pending;
  ok_distinct : forall tid1 tid2 t1 t2,
    transactions e !! tid1 = Some t1 -> transactions e !! tid2 = Some t2 ->
    promise t1 = promise t2 -> tid1 = tid2;
  ok_below : forall tid t,
    transactions e !! tid = Some t ->
    exists n, (n < nextTransactionIndex e)%N /\ tid = label (options e) n;
  ok_minted :
    minted e
    = (fun i => label (options e) (N.of_nat i))
        <$> seq 0 (N.to_nat (nextTransactionIndex e))
}.

(** An event that is not the arrival of a [return] envelope for [tid]. *)
Definition quiet (tid : TransactionID) (ev : Event) : Prop :=
  match ev with
  | Receive message => ~ (type message = "return" /\ transactionID message = tid)
  | _ => True
  end.

(** ** The statements under study *)

(** A call of [proxy.f(...argv)] on [caller], carried to [callee] and
    answered at once with [v]: the call completes with a pending promise
    [p] and sends one call envelope; the callee's handler answers it with
    one return envelope carrying [v] under the same id; and when that
    envelope reaches the caller, after any events other than a return for
    the same id, the handler settles [p] as fulfilled with [v]. *)
Definition sync_round_trip (caller callee : Engine) (f : string)
    (argv : list JsValue) (v : JsValue) : Prop :=
  exists (p : PromiseRef) (tid : TransactionID) (caller1 callee1 : Engine),
    proxy_invoke (KString f) argv caller = (caller1, ReturnedPromise p)
    /\ promises caller1 !! p = Some Pending
    /\ sent caller1 = sent caller ++ [call_message tid f argv]
    /\ handler (call_message tid f argv) callee = (callee1, None)
    /\ sent callee1 = sent callee ++ [return_value_message tid v]
    /\ forall between : list Event,
         Forall (quiet tid) between ->
         exists caller2,
           handler (return_value_message tid v) (run between caller1)
           = (caller2, None)
           /\ promises caller2 !! p = Some (Fulfilled v).

(** The same for a method that returns a promise which later fulfils with
    [v]: handling the call sends nothing and leaves one reaction behind;
    when the promise settles the reaction sends one return envelope
    carrying [v] itself and is gone, so that it cannot run a second time;
    the caller's promise is then fulfilled with [v] and keeps that state
    whatever happens next. *)
Definition async_round_trip (caller callee : Engine) (f : string)
    (argv : list JsValue) (v : JsValue) : Prop :=
  exists (p : PromiseRef) (tid : TransactionID) (caller1 callee1 : Engine),
    proxy_invoke (KString f) argv caller = (caller1, ReturnedPromise p)
    /\ promises caller1 !! p = Some Pending
    /\ sent caller1 = sent caller ++ [call_message tid f argv]
    /\ handler (call_message tid f argv) callee = (callee1, None)
    /\ sent callee1 = sent callee
    /\ reactions callee1 = reactions callee ++ [(tid, Fulfills v)]
    /\ (let callee2 := run_reaction (length (reactions callee)) callee1 in
        sent callee2 = sent callee ++ [return_value_message tid v]
        /\ reactions callee2 = reactions callee
        /\ run_reaction (length (reactions callee)) callee2 = callee2)
    /\ forall between : list Event,
         Forall (quiet tid) between ->
         exists caller2,
           handler (return_value_message tid v) (run between caller1)
           = (caller2, None)
           /\ promises caller2 !! p = Some (Fulfilled v)
           /\ forall later : list Event,
                promises (run later caller2) !! p = Some (Fulfilled v).

(** A message string, as opposed to any other value. *)
Definition is_message_string (v : JsValue) : Prop :=
  match v with
  | JString _ => True
  | _ => False
  end.

(** The value thrown is an [Error] instance. *)
Definition is_Error (v : JsValue) : Prop :=
  match v with
  | JError _ => True
  | _ => False
  end.

(** The reading of the return branch in which only a missing [ex] means
    success. *)
Definition settles_by_absence (message : CollabMessage) (t : Transaction)
    (e : Engine) : Prop :=
  (ex message = JUndefined ->
     promises (handler message e).1 !! promise t
     = Some (Fulfilled (value message)))
  /\ (ex message <> JUndefined ->
        promises (handler message e).1 !! promise t
        = Some (Rejected (ex message))).

(** ** Engines used in the examples *)

Definition add_impl (argv : list JsValue) : MethodResult :=
  match argv with
  | [JNumber x; JNumber y] => Returns (JNumber (x + y))
  | _ => Returns JUndefined
  end.
Definition add : Property := PFunction add_impl.

Definition slow_impl (argv : list JsValue) : MethodResult :=
  ReturnsPromise (Fulfills (JString "done")).
Definition slow : Property := PFunction slow_impl.

Definition sideA : Engine := collab {[ "add" := add; "slow" := slow ]} FigmaPlugin.
Definition sideB : Engine := collab ∅ FigmaPluginUI.

(** An adapter whose [toHandleMessage] returns nothing. *)
Definition BareAdapter : CollaborationOptions :=
  {| name := "Bare"; toHandleMessage := fun _ => (true, None) |}.

(** A method table that uses the proxy's reserved name. *)
Definition reservedSync : Engine :=
  collab {[ "cleanupProxy" := PFunction (fun _ => Returns (JNumber 1)) ]} FigmaPlugin.
Definition reservedAsync : Engine :=
  collab {[ "cleanupProxy" := PFunction (fun _ => ReturnsPromise (Fulfills (JNumber 1))) ]}
         FigmaPlugin.

(** Methods that fail with values of several kinds. *)
Definition throwing : Engine :=
  collab {[ "boom" := PFunction (fun _ => Throws (JError "kaput"));
            "code" := PFunction (fun _ => Throws (JNumber 42));
            "nothing" := PFunction (fun _ => Throws JNull);
            "refuse" := PFunction (fun _ => ReturnsPromise (Rejects (JNumber 42))) ]}
         FigmaPlugin.

(** [reply] is what a caught [fault] should become for transaction [tid]:
    a return envelope under that id whose [ex] is the fault's message when
    the fault is an [Error] instance, and the fault itself otherwise. *)
Definition error_reply (fault : JsValue) (tid : TransactionID)
    (reply : CollabMessage) : Prop :=
  type reply = "return"
  /\ transactionID reply = tid
  /\ (forall message, fault = JError message -> ex reply = JString message)
  /\ (~ is_Error fault -> ex reply = fault).

(** A return envelope whose [ex] field is present and [null]. *)
Definition null_ex_return : CollabMessage :=
  {| type := "return"; transactionID := "UI:0"; func := ""; args := JUndefined;
     value := JNumber 7; ex := JNull |}.

(** A return envelope that carries an error. *)
Definition failed_return : CollabMessage :=
  return_ex_message "UI:0" (JString "kaput").

(** An envelope with a tag the protocol does not know. *)
Definition odd_message : CollabMessage :=
  {| type := "ping"; transactionID := "UI:0"; func := ""; args := JUndefined;
     value := JUndefined; ex := JUndefined |}.

(** The caller after one call of [proxy.add(2, 3)]. *)
Definition sideB_calling : Engine :=
  (proxy_invoke (KString "add") [JNumber 2; JNumber 3] sideB).1.

(** ** Proof automation *)

(** Case analysis of the call branch: known or unknown method, and what the
    invocation does. *)
Ltac split_call :=
  unfold handle_call;
  repeat match goal with
         | |- context [decide ?P] => destruct (decide P)
         | |- context [invoke ?ms ?f ?a] => destruct (invoke ms f a)
         end; simpl.


(** ** Whole runs: what is sent and what is received *)

(** The [Error] sent for a call to a method that is not in the table. *)
Definition unknown_method_error (f : string) : JsValue :=
  JError ("Unknown method " +:+ dquote +:+ f +:+ dquote +:+ "!").

(** The remote calls among a list of events: the uses of the proxy under a
    string name other than [cleanupProxy], with their arguments. *)
Definition remote_invocations (evs : list Event) : list (string * list JsValue) :=
  omap (fun ev =>
          match ev with
          | Invoke (KString f) argv =>
              if decide (f = "cleanupProxy") then None else Some (f, argv)
          | _ => None
          end) evs.

(** The call envelopes an engine has sent, in order. *)
Definition calls_sent (e : Engine) : list CollabMessage :=
  filter (fun m => type m = "call") (sent e).

(** The transaction ids of the call envelopes among the events delivered
    to an engine. *)
Definition call_ids_received (evs : list Event) : list TransactionID :=
  omap (fun ev =>
          match ev with
          | Receive message =>
              if decide (type message = "call") then Some (transactionID message)
              else None
          | _ => None
          end) evs.

(** The envelopes one event can make an engine send: the call envelope of a
    remote call; for a delivered call, the unknown-method error, the value
    returned, or the fault caught; for a settled reaction, the value or the
    rejection reason. *)
Inductive produces (e : Engine) : Event -> CollabMessage -> Prop :=
| produces_call f argv :
    f <> "cleanupProxy" ->
    produces e (Invoke (KString f) argv) (call_message (mint e) f argv)
| produces_unknown message :
    listening e = true -> type message = "call" ->
    methods e !! func message = None ->
    produces e (Receive message)
      (return_ex_message (transactionID message)
         (unknown_method_error (func message)))
| produces_value message v :
    listening e = true -> type message = "call" ->
    invoke (methods e) (func message) (args message) = Returns v ->
    produces e (Receive message)
      (return_value_message (transactionID message) v)
| produces_ex message fault :
    listening e = true -> type message = "call" ->
    invoke (methods e) (func message) (args message) = Throws fault ->
    produces e (Receive message)
      (return_ex_message (transactionID message) (ex_to_send fault))
| produces_fulfilled k tid v :
    reactions e !! k = Some (tid, Fulfills v) ->
    produces e (Settled k) (return_value_message tid v)
| produces_rejected k tid reason :
    reactions e !! k = Some (tid, Rejects reason) ->
    produces e (Settled k) (return_ex_message tid (ex_to_send reason)).

(** A call through the proxy, carried to [callee], whose answer is the
    error [reason]: as [sync_round_trip], with the caller's promise rejected
    with [reason] in the end. *)
Definition failed_round_trip (caller callee : Engine) (f : string)
    (argv : list JsValue) (reason : JsValue) : Prop :=
  exists (p : PromiseRef) (tid : TransactionID) (caller1 callee1 : Engine),
    proxy_invoke (KString f) argv caller = (caller1, ReturnedPromise p)
    /\ promises caller1 !! p = Some Pending
    /\ sent caller1 = sent caller ++ [call_message tid f argv]
    /\ handler (call_message tid f argv) callee = (callee1, None)
    /\ sent callee1 = sent callee ++ [return_ex_message tid reason]
    /\ forall between : list Event,
         Forall (quiet tid) between ->
         exists caller2,
           handler (return_ex_message tid reason) (run between caller1)
           = (caller2, None)
           /\ promises caller2 !! p = Some (Rejected reason)
           /\ forall later : list Event,
                promises (run later caller2) !! p = Some (Rejected reason).

(** A value that the return branch reads as "no error". *)
Definition is_nullish (v : JsValue) : Prop :=
  match v with
  | JUndefined | JNull => True
  | _ => False
  end.

(** A method table with a property that is not a function. *)
Definition withData : Engine :=
  collab {[ "version" := PData (JNumber 3); "add" := add ]} FigmaPlugin.

(** A call envelope whose [args] is not iterable. *)
Definition call_without_args : CollabMessage :=
  {| type := "call"; transactionID := "UI:0"; func := "add"; args := JUndefined;
     value := JUndefined; ex := JUndefined |}.

(** A call through the proxy to a method that returns a promise which
    later rejects with [fault], answered with the error [reason]: handling
    the call sends nothing; when the promise rejects, one return envelope
    with [ex] set to [reason] is sent; the caller's promise is rejected with
    [reason] in the end. *)
Definition rejected_round_trip (caller callee : Engine) (f : string)
    (argv : list JsValue) (fault reason : JsValue) : Prop :=
  exists (p : PromiseRef) (tid : TransactionID) (caller1 callee1 : Engine),
    proxy_invoke (KString f) argv caller = (caller1, ReturnedPromise p)
    /\ promises caller1 !! p = Some Pending
    /\ sent caller1 = sent caller ++ [call_message tid f argv]
    /\ handler (call_message tid f argv) callee = (callee1, None)
    /\ sent callee1 = sent callee
    /\ reactions callee1 = reactions callee ++ [(tid, Rejects fault)]
    /\ sent (run_reaction (length (reactions callee)) callee1)
       = sent callee ++ [return_ex_message tid reason]
    /\ forall between : list Event,
         Forall (quiet tid) between ->
         exists caller2,
           handler (return_ex_message tid reason) (run between caller1)
           = (caller2, None)
           /\ promises caller2 !! p = Some (Rejected reason)
           /\ forall later : list Event,
                promises (run later caller2) !! p = Some (Rejected reason).

(** A call through the proxy to a method the other side does not have: two
    return envelopes come back; the first rejects the caller's promise with
    the unknown-method error, the second finds the transaction gone and
    makes the caller's handler raise. *)
Definition unknown_round_trip (caller callee : Engine) (f : string)
    (argv : list JsValue) : Prop :=
  exists (p : PromiseRef) (tid : TransactionID) (text : string)
         (caller1 callee1 caller2 : Engine),
    proxy_invoke (KString f) argv caller = (caller1, ReturnedPromise p)
    /\ sent caller1 = sent caller ++ [call_message tid f argv]
    /\ handler (call_message tid f argv) callee = (callee1, None)
    /\ sent callee1
       = sent callee ++ [return_ex_message tid (unknown_method_error f);
                         return_ex_message tid (JString text)]
    /\ handler (return_ex_message tid (unknown_method_error f)) caller1
       = (caller2, None)
    /\ promises caller2 !! p = Some (Rejected (unknown_method_error f))
    /\ handler (return_ex_message tid (JString text)) caller2
       = (caller2,
          Some (JError ("Return value for unknown transaction ID " +:+ tid
                          +:+ " arrived!"))).

(** ** Two engines joined by the adapters of [figma.ts] *)

(** The plugin's UI and the plugin's code, each running [collab] with its
    adapter. What [FigmaPluginUI.toSendMessage] posts is on its way to the
    plugin's handler, what [FigmaPlugin.toSendMessage] posts is on its way
    to the UI's handler; [faults] collects what the handlers raise. *)
Record System : Type := {
  ui : Engine;
  plugin : Engine;
  to_plugin : list CollabMessage;
  to_ui : list CollabMessage;
  faults : list JsValue
}.

Definition connect (uiMethods pluginMethods : gmap string Property) : System :=
  {| ui := collab uiMethods FigmaPluginUI;
     plugin := collab pluginMethods FigmaPlugin;
     to_plugin := [];
     to_ui := [];
     faults := [] |}.

(** The envelopes an engine has sent between two of its states. *)
Definition fresh_sent (before after : Engine) : list CollabMessage :=
  drop (length (sent before)) (sent after).

(** What the handler raises on an event. *)
Definition raised (e : Engine) (ev : Event) : list JsValue :=
  match ev with
  | Receive message =>
      if listening e then
        match (handler message e).2 with
        | Some fault => [fault]
        | None => []
        end
      else []
  | _ => []
  end.

(** One event on the UI side: the UI's engine takes the step, and what it
    sends joins the envelopes on their way to the plugin. *)
Definition at_ui (ev : Event) (sys : System) : System :=
  {| ui := step (ui sys) ev;
     plugin := plugin sys;
     to_plugin := to_plugin sys ++ fresh_sent (ui sys) (step (ui sys) ev);
     to_ui := to_ui sys;
     faults := faults sys ++ raised (ui sys) ev |}.

(** What can happen on one side: local code uses the proxy, the channel
    delivers the [k]-th envelope on its way to this side (envelopes may
    overtake one another), or the promise of the [k]-th reaction settles. *)
Inductive Move : Type :=
| Use (prop : PropKey) (argv : list JsValue)
| Deliver (k : nat)
| Settle (k : nat).

Definition move_ui (mv : Move) (sys : System) : System :=
  match mv with
  | Use prop argv => at_ui (Invoke prop argv) sys
  | Settle k => at_ui (Settled k) sys
  | Deliver k =>
      match to_ui sys !! k with
      | Some message =>
          at_ui (Receive message)
            {| ui := ui sys; plugin := plugin sys; to_plugin := to_plugin sys;
               to_ui := delete k (to_ui sys); faults := faults sys |}
      | None => sys
      end
  end.

(** The same system seen from the other side. *)
Definition swap (sys : System) : System :=
  {| ui := plugin sys; plugin := ui sys;
     to_plugin := to_ui sys; to_ui := to_plugin sys;
     faults := faults sys |}.

Inductive Side : Type := UI | Plugin.

Definition move (a : Side * Move) (sys : System) : System :=
  match a.1 with
  | UI => move_ui a.2 sys
  | Plugin => swap (move_ui a.2 (swap sys))
  end.

Definition play (acts : list (Side * Move)) (sys : System) : System :=
  foldl (fun s a => move a s) sys acts.

(** A move that, when it calls a method of the other side, calls one the
    other side's table has. *)
Definition names_known (uiMethods pluginMethods : gmap string Property)
    (a : Side * Move) : Prop :=
  match a with
  | (UI, Use (KString f) _) =>
      f = "cleanupProxy" \/ is_Some (pluginMethods !! f)
  | (Plugin, Use (KString f) _) =>
      f = "cleanupProxy" \/ is_Some (uiMethods !! f)
  | _ => True
  end.

(** The transaction ids carried by the call envelopes, and by the return
    envelopes, of a list. *)
Definition call_ids (l : list CollabMessage) : list TransactionID :=
  omap (fun m => if decide (type m = "call") then Some (transactionID m) else None) l.
Definition return_ids (l : list CollabMessage) : list TransactionID :=
  omap (fun m => if decide (type m = "return") then Some (transactionID m) else None) l.

(** The ids of one side's calls that are still under way: in a call
    envelope travelling to the other side, in a reaction waiting there, or
    in a return envelope travelling back. *)
Definition awaited (outgoing incoming : list CollabMessage) (callee : Engine)
  : list TransactionID :=
  call_ids outgoing ++ (reactions callee).*1 ++ return_ids incoming.

(** The state of one direction of the protocol: the calls under way are
    pairwise distinct and all registered at the caller, and the envelopes
    travelling from the caller are calls for properties the callee has, or
    returns. *)
Record link (caller callee : Engine) (outgoing incoming : list CollabMessage)
  : Prop := {
  link_nodup : NoDup (awaited outgoing incoming callee);
  link_registered : forall tid,
    tid ∈ awaited outgoing incoming callee ->
    is_Some (transactions caller !! tid);
  link_known : forall m,
    m ∈ outgoing -> type m = "call" -> is_Some (methods callee !! func m);
  link_typed : forall m,
    m ∈ outgoing -> type m = "call" \/ type m = "return"
}.

Record system_ok (sys : System) : Prop := {
  ok_ui : register_ok (ui sys);
  ok_plugin : register_ok (plugin sys);
  ok_ui_link : link (ui sys) (plugin sys) (to_plugin sys) (to_ui sys);
  ok_plugin_link : link (plugin sys) (ui sys) (to_ui sys) (to_plugin sys);
  ok_faults : faults sys = []
}.

(** Whether a string contains a colon. *)
Fixpoint has_colon (s : string) : bool :=
  match s with
  | EmptyString => false
  | String c rest => bool_decide (c = Ascii.ascii_of_nat 58) || has_colon rest
  end.

(** * Properties *)

(** ** The examples of the documentation, run *)

Example mint_first : mint sideB = "UI:0".
Proof. reflexivity. Qed.

Example add_2_3 :
  let b1 := proxy_invoke (KString "add") [JNumber 2; JNumber 3] sideB in
  let a1 := handler (call_message "UI:0" "add" [JNumber 2; JNumber 3]) sideA in
  let b2 := handler (return_value_message "UI:0" (JNumber 5)) b1.1 in
  b1.2 = ReturnedPromise 0
  /\ sent b1.1 = [call_message "UI:0" "add" [JNumber 2; JNumber 3]]
  /\ sent a1.1 = [return_value_message "UI:0" (JNumber 5)]
  /\ promises b2.1 = [Fulfilled (JNumber 5)]
  /\ transactions b2.1 = ∅.
Proof. vm_compute. repeat split. Qed.

Example slow_done :
  let a1 := (handler (call_message "UI:0" "slow" []) sideA).1 in
  sent a1 = []
  /\ reactions a1 = [("UI:0", Fulfills (JString "done"))]
  /\ sent (run_reaction 0 a1) = [return_value_message "UI:0" (JString "done")].
Proof. vm_compute. repeat split. Qed.

(** ** The three branches of the handler *)

Lemma handler_call message e :
  type message = "call" -> handler message e = (handle_call message e, None).
Proof. intros Hty. unfold handler. rewrite decide_True; done. Qed.

Lemma handler_return_found message t e :
  type message = "return" ->
  transactions e !! transactionID message = Some t ->
  handler message e = (handle_return message t e, None).
Proof.
  intros Hty Hreg. unfold handler.
  rewrite decide_False by (rewrite Hty; discriminate).
  rewrite decide_True by done. by rewrite Hreg.
Qed.

Lemma handler_return_unknown message e :
  type message = "return" ->
  transactions e !! transactionID message = None ->
  handler message e
  = (e, Some (JError ("Return value for unknown transaction ID "
                        +:+ transactionID message +:+ " arrived!"))).
Proof.
  intros Hty Hreg. unfold handler.
  rewrite decide_False by (rewrite Hty; discriminate).
  rewrite decide_True by done. by rewrite Hreg.
Qed.

Lemma handler_other message e :
  type message <> "call" -> type message <> "return" ->
  handler message e
  = (e, Some (JError ("Unknown message with type " +:+ type message
                        +:+ " arrived!"))).
Proof. intros H1 H2. unfold handler. by rewrite !decide_False. Qed.

(** ** What the call branch leaves alone *)

Lemma handle_call_frame message e :
  transactions (handle_call message e) = transactions e
  /\ promises (handle_call message e) = promises e
  /\ nextTransactionIndex (handle_call message e) = nextTransactionIndex e
  /\ options (handle_call message e) = options e
  /\ methods (handle_call message e) = methods e
  /\ cleanupFunction (handle_call message e) = cleanupFunction e
  /\ listening (handle_call message e) = listening e.
Proof. split_call; done. Qed.

Lemma minted_toSendMessage m e :
  minted (toSendMessage m e)
  = minted e ++ (if decide (type m = "call") then [transactionID m] else []).
Proof.
  unfold minted. simpl. rewrite omap_app. simpl.
  by destruct (decide (type m = "call")).
Qed.

Lemma handle_call_minted message e : minted (handle_call message e) = minted e.
Proof.
  split_call; rewrite ?minted_toSendMessage; simpl; rewrite ?app_nil_r;
    try done; unfold minted; simpl; rewrite ?omap_app; simpl;
    by rewrite ?app_nil_r.
Qed.

Lemma run_reaction_frame k e :
  transactions (run_reaction k e) = transactions e
  /\ promises (run_reaction k e) = promises e
  /\ nextTransactionIndex (run_reaction k e) = nextTransactionIndex e
  /\ options (run_reaction k e) = options e
  /\ methods (run_reaction k e) = methods e
  /\ cleanupFunction (run_reaction k e) = cleanupFunction e
  /\ listening (run_reaction k e) = listening e
  /\ minted (run_reaction k e) = minted e.
Proof.
  unfold run_reaction. destruct (reactions e !! k) as [[tid [v|r|]]|]; simpl;
    repeat split; try done;
    rewrite minted_toSendMessage; simpl; by rewrite app_nil_r.
Qed.

(** ** Settled promises stay as they are *)

Lemma settle_keeps q outcome heap p s :
  heap !! p = Some s -> s <> Pending -> settle q outcome heap !! p = Some s.
Proof.
  intros Hp Hs. unfold settle.
  destruct (heap !! q) as [[| |]|] eqn:Hq; try done.
  destruct (decide (q = p)) as [->|Hne]; [congruence|].
  by rewrite list_lookup_insert_ne.
Qed.

Lemma settle_pending p outcome heap :
  heap !! p = Some Pending -> settle p outcome heap !! p = Some outcome.
Proof.
  intros Hp. unfold settle. rewrite Hp.
  apply list_lookup_insert_eq. by eapply lookup_lt_Some.
Qed.

Lemma settle_other q outcome heap p :
  q <> p -> settle q outcome heap !! p = heap !! p.
Proof.
  intros Hne. unfold settle.
  destruct (heap !! q) as [[| |]|]; try done. by rewrite list_lookup_insert_ne.
Qed.

Lemma handle_return_keeps message t e p s :
  promises e !! p = Some s -> s <> Pending ->
  promises (handle_return message t e) !! p = Some s.
Proof.
  intros Hp Hs. unfold handle_return, resolvePromise, rejectPromise.
  destruct (ex message); simpl; by apply settle_keeps.
Qed.

Lemma handler_keeps message e p s :
  promises e !! p = Some s -> s <> Pending ->
  promises (handler message e).1 !! p = Some s.
Proof.
  intros Hp Hs. unfold handler.
  destruct (decide (type message = "call")); simpl.
  { by rewrite (proj1 (proj2 (handle_call_frame message e))). }
  destruct (decide (type message = "return")); simpl; [|done].
  destruct (transactions e !! transactionID message); simpl; [|done].
  by apply handle_return_keeps.
Qed.

Lemma proxy_invoke_keeps prop argv e p s :
  promises e !! p = Some s ->
  promises (proxy_invoke prop argv e).1 !! p = Some s.
Proof.
  intros Hp. unfold proxy_invoke, proxy_get.
  destruct prop as [f|d]; simpl; [|done].
  destruct (decide (f = "cleanupProxy")); simpl.
  - by destruct (cleanupFunction e).
  - by apply lookup_app_l_Some.
Qed.

Lemma step_keeps e ev p s :
  promises e !! p = Some s -> s <> Pending ->
  promises (step e ev) !! p = Some s.
Proof.
  intros Hp Hs. destruct ev as [prop argv|message|k]; simpl.
  - by apply proxy_invoke_keeps.
  - destruct (listening e); [by apply handler_keeps|done].
  - by rewrite (proj1 (proj2 (run_reaction_frame k e))).
Qed.

Lemma run_keeps evs e p s :
  promises e !! p = Some s -> s <> Pending ->
  promises (run evs e) !! p = Some s.
Proof.
  revert e. induction evs as [|ev evs IH]; intros e Hp Hs; [done|].
  simpl. apply IH; [by apply step_keeps|done].
Qed.

(** ** Transaction ids *)

Lemma label_inj opts : Inj (=) (=) (label opts).
Proof.
  intros n m Heq. unfold label in Heq.
  apply (inj (String.app _)) in Heq. apply (inj (String.app _)) in Heq.
  by apply (inj pretty) in Heq.
Qed.

Lemma mint_label e : mint e = label (options e) (nextTransactionIndex e).
Proof. done. Qed.

(** ** The invariant holds along every run *)

Lemma collab_ok ms opts : register_ok (collab ms opts).
Proof.
  split; simpl; intros; simplify_map_eq; done.
Qed.

Lemma remote_call_ok prop argv e :
  register_ok e -> register_ok (remote_call prop argv e).1.
Proof.
  intros [Hkey Hpend Hdist Hbelow Hmint]. unfold remote_call. split; simpl.
  - intros tid t [[<- <-]|[_ Hold]]%lookup_insert_Some; [done|eauto].
  - intros tid t [[<- <-]|[_ Hold]]%lookup_insert_Some; simpl.
    + by rewrite lookup_app_r, Nat.sub_diag.
    + apply lookup_app_l_Some. eauto.
  - intros tid1 tid2 t1 t2
      [[<- <-]|[_ H1]]%lookup_insert_Some [[<- <-]|[_ H2]]%lookup_insert_Some;
      simpl; intros Hp; try done.
    + apply Hpend, lookup_lt_Some in H2. lia.
    + apply Hpend, lookup_lt_Some in H1. lia.
    + eauto.
  - intros tid t [[<- <-]|[_ Hold]]%lookup_insert_Some.
    + exists (nextTransactionIndex e). split; [lia|done].
    + destruct (Hbelow _ _ Hold) as (n & Hn & ->). exists n. split; [lia|done].
  - rewrite minted_toSendMessage. simpl.
    change (minted (with_transactions _ _)) with (minted e).
    rewrite Hmint, N2Nat.inj_succ, seq_S, fmap_app. simpl.
    by rewrite N2Nat.id.
Qed.

Lemma handle_return_ok message t e :
  register_ok e ->
  transactions e !! transactionID message = Some t ->
  register_ok (handle_return message t e).
Proof.
  intros [Hkey Hpend Hdist Hbelow Hmint] Hreg.
  assert (Hframe : forall outcome tid' t',
    delete (transactionID message) (transactions e) !! tid' = Some t' ->
    settle (promise t) outcome (promises e) !! promise t' = Some Pending).
  { intros outcome tid' t' [Hne Hold]%lookup_delete_Some.
    rewrite settle_other; [eauto|].
    intros Heq. apply Hne. eauto. }
  unfold handle_return, resolvePromise, rejectPromise.
  split; destruct (ex message); simpl;
    try (intros tid' t' [_ Hold]%lookup_delete_Some; by eauto);
    try (intros tid1 tid2 t1 t2 [_ H1]%lookup_delete_Some
           [_ H2]%lookup_delete_Some; by eauto);
    try (intros tid' t' Hin; by eapply Hframe);
    try done.
Qed.

Lemma handle_call_ok message e : register_ok e -> register_ok (handle_call message e).
Proof.
  intros [Hkey Hpend Hdist Hbelow Hmint].
  destruct (handle_call_frame message e) as (Ht & Hp & Hn & Ho & _).
  split; rewrite ?Ht, ?Hp, ?Hn, ?Ho, ?handle_call_minted; done.
Qed.

Lemma run_reaction_ok k e : register_ok e -> register_ok (run_reaction k e).
Proof.
  intros [Hkey Hpend Hdist Hbelow Hmint].
  destruct (run_reaction_frame k e) as (Ht & Hp & Hn & Ho & _ & _ & _ & Hm).
  split; rewrite ?Ht, ?Hp, ?Hn, ?Ho, ?Hm; done.
Qed.

Lemma handler_ok message e : register_ok e -> register_ok (handler message e).1.
Proof.
  intros Hok. unfold handler.
  destruct (decide (type message = "call")); simpl; [by apply handle_call_ok|].
  destruct (decide (type message = "return")); simpl; [|done].
  destruct (transactions e !! transactionID message) eqn:Hreg; simpl; [|done].
  by apply handle_return_ok.
Qed.

Lemma proxy_invoke_ok prop argv e :
  register_ok e -> register_ok (proxy_invoke prop argv e).1.
Proof.
  intros Hok. unfold proxy_invoke, proxy_get.
  destruct prop as [f|d]; simpl; [|done].
  destruct (decide (f = "cleanupProxy")); simpl.
  - destruct (cleanupFunction e); [|done]. by destruct Hok.
  - by apply remote_call_ok.
Qed.

Lemma step_ok e ev : register_ok e -> register_ok (step e ev).
Proof.
  intros Hok. destruct ev as [prop argv|message|k]; simpl.
  - by apply proxy_invoke_ok.
  - destruct (listening e); [by apply handler_ok|done].
  - by apply run_reaction_ok.
Qed.

Lemma run_ok evs e : register_ok e -> register_ok (run evs e).
Proof.
  revert e. induction evs as [|ev evs IH]; intros e Hok; [done|].
  simpl. by apply IH, step_ok.
Qed.

Lemma step_options e ev : options (step e ev) = options e.
Proof.
  destruct ev as [prop argv|message|k]; simpl.
  - unfold proxy_invoke, proxy_get. destruct prop as [f|d]; simpl; [|done].
    destruct (decide (f = "cleanupProxy")); simpl; [|done].
    by destruct (cleanupFunction e).
  - destruct (listening e); [|done]. unfold handler.
    destruct (decide (type message = "call")); simpl.
    { apply handle_call_frame. }
    destruct (decide (type message = "return")); simpl; [|done].
    destruct (transactions e !! transactionID message); simpl; [|done].
    unfold handle_return. by destruct (ex message).
  - apply run_reaction_frame.
Qed.

Lemma run_options evs e : options (run evs e) = options e.
Proof.
  revert e. induction evs as [|ev evs IH]; intros e; [done|].
  simpl. by rewrite IH, step_options.
Qed.

(** ** A registered transaction waits for its own return *)

Lemma step_quiet e ev tid t :
  register_ok e -> quiet tid ev ->
  transactions e !! tid = Some t ->
  transactions (step e ev) !! tid = Some t.
Proof.
  intros Hok Hquiet Hreg. destruct ev as [prop argv|message|k]; simpl.
  - unfold proxy_invoke, proxy_get. destruct prop as [f|d]; simpl; [|done].
    destruct (decide (f = "cleanupProxy")); simpl.
    { by destruct (cleanupFunction e). }
    rewrite lookup_insert_ne; [done|].
    destruct (ok_below e Hok _ _ Hreg) as (i & Hi & ->).
    rewrite mint_label. intros Heq%label_inj. lia.
  - destruct (listening e); [|done]. unfold handler.
    destruct (decide (type message = "call")); simpl.
    { by rewrite (proj1 (handle_call_frame message e)). }
    destruct (decide (type message = "return")) as [Hty|]; simpl; [|done].
    destruct (transactions e !! transactionID message); simpl; [|done].
    assert (transactionID message <> tid) by (intros Heq; by apply Hquiet).
    unfold handle_return. destruct (ex message); simpl;
      by rewrite lookup_delete_ne.
  - by rewrite (proj1 (run_reaction_frame k e)).
Qed.

Lemma run_quiet evs e tid t :
  register_ok e -> Forall (quiet tid) evs ->
  transactions e !! tid = Some t ->
  transactions (run evs e) !! tid = Some t.
Proof.
  revert e. induction evs as [|ev evs IH]; intros e Hok Hquiet Hreg; [done|].
  apply Forall_cons in Hquiet as [Hev Hevs]. simpl.
  apply IH; [by apply step_ok|done|by apply step_quiet].
Qed.

(** ** Issuing a call *)

Lemma proxy_invoke_remote f argv e :
  f <> "cleanupProxy" ->
  proxy_invoke (KString f) argv e
  = ((remote_call f argv e).1, ReturnedPromise (length (promises e))).
Proof.
  intros Hf. unfold proxy_invoke, proxy_get. by rewrite decide_False.
Qed.

Lemma remote_call_spec f argv e :
  let e1 := (remote_call f argv e).1 in
  promises e1 !! length (promises e) = Some Pending
  /\ sent e1 = sent e ++ [call_message (mint e) f argv]
  /\ transactions e1 !! mint e
     = Some {| t_transactionID := mint e; promise := length (promises e) |}.
Proof.
  simpl. split_and!.
  - by rewrite lookup_app_r, Nat.sub_diag.
  - done.
  - by rewrite lookup_insert_eq.
Qed.

(** ** Answering a call *)

Lemma invoke_function ms f impl argv :
  ms !! f = Some (PFunction impl) -> invoke ms f (JArray argv) = impl argv.
Proof. intros Hf. unfold invoke. simpl. by rewrite Hf. Qed.

Lemma handle_call_known message e :
  is_Some (methods e !! func message) ->
  handle_call message e
  = match invoke (methods e) (func message) (args message) with
    | ReturnsPromise fate =>
        with_reactions (fun rs => rs ++ [(transactionID message, fate)]) e
    | Returns v => toSendMessage (return_value_message (transactionID message) v) e
    | Throws thrown =>
        toSendMessage
          (return_ex_message (transactionID message) (ex_to_send thrown)) e
    end.
Proof. intros Hin. unfold handle_call. by rewrite decide_True. Qed.

(** ** Receiving the return *)

Lemma return_settles message t e :
  register_ok e ->
  type message = "return" ->
  transactions e !! transactionID message = Some t ->
  handler message e = (handle_return message t e, None)
  /\ promises (handle_return message t e) !! promise t
     = Some match ex message with
            | JUndefined | JNull => Fulfilled (value message)
            | reason => Rejected reason
            end
  /\ transactions (handle_return message t e)
     = delete (transactionID message) (transactions e).
Proof.
  intros Hok Hty Hreg. split; [by apply handler_return_found|].
  pose proof (ok_pending e Hok _ _ Hreg) as Hpend.
  unfold handle_return, resolvePromise, rejectPromise.
  destruct (ex message); simpl; split; try done; by apply settle_pending.
Qed.

Lemma return_after_quiet evs e1 tid t v :
  register_ok e1 ->
  transactions e1 !! tid = Some t ->
  Forall (quiet tid) evs ->
  exists e2,
    handler (return_value_message tid v) (run evs e1) = (e2, None)
    /\ promises e2 !! promise t = Some (Fulfilled v).
Proof.
  intros Hok Hreg Hquiet.
  pose proof (run_quiet evs e1 tid t Hok Hquiet Hreg) as Hlater.
  destruct (return_settles (return_value_message tid v) t (run evs e1))
    as (Hh & Hp & _); [by apply run_ok|done|done|].
  eexists. split; [exact Hh|exact Hp].
Qed.

(** ** Synchronous methods *)

(** C1, amended: for a method table holding under a name [f] other than the
    reserved [cleanupProxy] a synchronous method that returns [v] on
    [argv], calling [proxy.f(...argv)] on the other side yields a promise
    that is fulfilled with [v]: the dispatcher calls the method with the
    spread arguments and sends a return envelope with [v] under the call's
    transaction id, and the caller's handler resolves the pending promise
    with [v]. *)
Theorem sync_call_settles_to_value ms opts evs callee f impl argv v :
  f <> "cleanupProxy" ->
  methods callee !! f = Some (PFunction impl) ->
  impl argv = Returns v ->
  sync_round_trip (run evs (collab ms opts)) callee f argv v.
Proof.
  intros Hf Hin Himpl. set (caller := run evs (collab ms opts)).
  assert (Hok : register_ok caller) by apply run_ok, collab_ok.
  destruct (remote_call_spec f argv caller) as (Hp & Hsent & Hreg).
  exists (length (promises caller)), (mint caller),
    (remote_call f argv caller).1,
    (handle_call (call_message (mint caller) f argv) callee).
  split_and!.
  - by apply proxy_invoke_remote.
  - done.
  - done.
  - by apply handler_call.
  - rewrite handle_call_known by (simpl; by rewrite Hin). simpl.
    by rewrite (invoke_function _ _ impl), Himpl.
  - intros between Hquiet.
    by apply (return_after_quiet between _ (mint caller)
                {| t_transactionID := mint caller;
                   promise := length (promises caller) |} v);
      [apply remote_call_ok| |].
Qed.

Lemma sync_call_settles_to_value_witness :
  "add" <> "cleanupProxy"
  /\ methods sideA !! "add" = Some (PFunction add_impl)
  /\ add_impl [JNumber 2; JNumber 3] = Returns (JNumber 5)
  /\ sync_round_trip (run [] (collab ∅ FigmaPluginUI)) sideA "add"
       [JNumber 2; JNumber 3] (JNumber 5).
Proof.
  split; [discriminate|]. split; [reflexivity|]. split; [reflexivity|].
  apply (sync_call_settles_to_value ∅ FigmaPluginUI [] sideA "add" add_impl);
    [discriminate|reflexivity|reflexivity].
Defined.

(** C1 as stated fails for a method named [cleanupProxy]: the proxy hands
    back the cleanup function, no call is sent and no promise is made. *)
Lemma sync_call_reserved_name :
  methods reservedSync !! "cleanupProxy"
  = Some (PFunction (fun _ => Returns (JNumber 1)))
  /\ proxy_invoke (KString "cleanupProxy") [] sideB
     = (with_listening (fun _ => false) sideB, ReturnedUndefined)
  /\ ~ sync_round_trip sideB reservedSync "cleanupProxy" [] (JNumber 1).
Proof.
  split; [reflexivity|]. split; [reflexivity|].
  intros (p & tid & caller1 & callee1 & Hinvoke & _).
  apply (f_equal snd) in Hinvoke. discriminate Hinvoke.
Qed.

(** ** Asynchronous methods *)

Lemma run_reaction_last rs tid fate (e : Engine) :
  reactions e = rs ++ [(tid, fate)] ->
  run_reaction (length rs) e
  = match fate with
    | Fulfills newValue =>
        toSendMessage (return_value_message tid newValue)
          (with_reactions (fun _ => rs) e)
    | Rejects reason =>
        toSendMessage (return_ex_message tid (ex_to_send reason))
          (with_reactions (fun _ => rs) e)
    | StaysPending => e
    end.
Proof.
  intros Hrs. unfold run_reaction.
  assert (Hlast : reactions e !! length rs = Some (tid, fate)).
  { rewrite Hrs. by rewrite lookup_app_r, Nat.sub_diag. }
  assert (Hspent : with_reactions (delete (length rs)) e
                   = with_reactions (fun _ => rs) e).
  { unfold with_reactions. f_equal. rewrite Hrs.
    by rewrite (delete_middle rs [] (tid, fate)), app_nil_r. }
  rewrite Hlast, Hspent. by destruct fate.
Qed.

(** C2, amended: for a method, under a name other than the reserved
    [cleanupProxy], that returns a promise which later fulfils with [v],
    the call through the proxy yields a promise that is fulfilled with [v]
    itself, once: the dispatcher sends nothing until the method's promise
    settles, then sends one return envelope carrying [v], and the caller's
    promise keeps the value [v] from then on. *)
Theorem async_call_settles_to_value ms opts evs callee f impl argv v :
  f <> "cleanupProxy" ->
  methods callee !! f = Some (PFunction impl) ->
  impl argv = ReturnsPromise (Fulfills v) ->
  async_round_trip (run evs (collab ms opts)) callee f argv v.
Proof.
  intros Hf Hin Himpl. set (caller := run evs (collab ms opts)).
  assert (Hok : register_ok caller) by apply run_ok, collab_ok.
  destruct (remote_call_spec f argv caller) as (Hp & Hsent & Hreg).
  set (call := call_message (mint caller) f argv).
  assert (Hcallee : handle_call call callee
    = with_reactions (fun rs => rs ++ [(mint caller, Fulfills v)]) callee).
  { rewrite handle_call_known by (simpl; by rewrite Hin). simpl.
    by rewrite (invoke_function _ _ impl), Himpl. }
  exists (length (promises caller)), (mint caller),
    (remote_call f argv caller).1, (handle_call call callee).
  split_and!.
  - by apply proxy_invoke_remote.
  - done.
  - done.
  - by apply handler_call.
  - by rewrite Hcallee.
  - by rewrite Hcallee.
  - rewrite (run_reaction_last (reactions callee) (mint caller) (Fulfills v))
      by (by rewrite Hcallee).
    rewrite Hcallee. split_and!; [done|done|].
    unfold run_reaction. simpl. by rewrite lookup_ge_None_2.
  - intros between Hquiet.
    destruct (return_after_quiet between (remote_call f argv caller).1
                (mint caller)
                {| t_transactionID := mint caller;
                   promise := length (promises caller) |} v)
      as (caller2 & Hh & Hfulfilled); [by apply remote_call_ok|done|done|].
    exists caller2. split_and!; [done|done|].
    intros later. by apply run_keeps.
Qed.

Lemma async_call_settles_to_value_witness :
  "slow" <> "cleanupProxy"
  /\ methods sideA !! "slow" = Some (PFunction slow_impl)
  /\ slow_impl [] = ReturnsPromise (Fulfills (JString "done"))
  /\ async_round_trip (run [] (collab ∅ FigmaPluginUI)) sideA "slow" []
       (JString "done").
Proof.
  split; [discriminate|]. split; [reflexivity|]. split; [reflexivity|].
  apply (async_call_settles_to_value ∅ FigmaPluginUI [] sideA "slow" slow_impl);
    [discriminate|reflexivity|reflexivity].
Defined.

(** C2 as stated fails for an asynchronous method named [cleanupProxy]:
    with an adapter that returns no cleanup function the call through the
    proxy throws, and no promise is made. *)
Lemma async_call_reserved_name :
  methods reservedAsync !! "cleanupProxy"
  = Some (PFunction (fun _ => ReturnsPromise (Fulfills (JNumber 1))))
  /\ proxy_invoke (KString "cleanupProxy") [] (collab ∅ BareAdapter)
     = (collab ∅ BareAdapter,
        Thrown (JError "proxy.cleanupProxy is not a function"))
  /\ ~ async_round_trip (collab ∅ BareAdapter) reservedAsync "cleanupProxy" []
         (JNumber 1).
Proof.
  split; [reflexivity|]. split; [reflexivity|].
  intros (p & tid & caller1 & callee1 & Hinvoke & _).
  apply (f_equal snd) in Hinvoke. discriminate Hinvoke.
Qed.

(** ** Unknown methods *)

Lemma unknown_method_two_returns message e :
  methods e !! func message = None ->
  exists text,
    sent (handle_call message e)
    = sent e
      ++ [return_ex_message (transactionID message)
            (JError ("Unknown method " +:+ dquote +:+ func message +:+ dquote
                       +:+ "!"));
          return_ex_message (transactionID message) (JString text)].
Proof.
  intros Hnone. unfold handle_call.
  rewrite decide_False by (rewrite Hnone; by intros [? ?]).
  unfold invoke. simpl. rewrite Hnone.
  destruct (spread (args message)); simpl; rewrite <- app_assoc; simpl;
    by eexists.
Qed.

(** C3: the code at a call for a method that is not in the table. The
    handler sends two return envelopes for the one call, the
    unknown-method error and then the [TypeError] of calling the missing
    property; the caller's promise is rejected by the first, and the second
    makes the caller's handler raise an unknown-transaction fault. *)
Theorem unknown_method_answered_twice :
  let call := call_message "UI:0" "missing" [] in
  let first :=
    return_ex_message "UI:0"
      (JError ("Unknown method " +:+ dquote +:+ "missing" +:+ dquote +:+ "!")) in
  let second :=
    return_ex_message "UI:0" (JString "methods[message.func] is not a function") in
  let b1 := (proxy_invoke (KString "missing") [] sideB).1 in
  let b2 := (handler first b1).1 in
  methods sideA !! "missing" = None
  /\ sent b1 = [call]
  /\ (handler call sideA).2 = None
  /\ sent (handler call sideA).1 = [first; second]
  /\ promises b2
     = [Rejected (JError ("Unknown method " +:+ dquote +:+ "missing" +:+ dquote
                            +:+ "!"))]
  /\ handler second b2
     = (b2, Some (JError "Return value for unknown transaction ID UI:0 arrived!")).
Proof. vm_compute. repeat split. Qed.

(** ** Faults caught by the dispatcher *)

Lemma ex_to_send_reply fault tid :
  error_reply fault tid (return_ex_message tid (ex_to_send fault)).
Proof.
  split_and!; try done.
  - by intros message ->.
  - by destruct fault.
Qed.

Lemma handle_call_throws message e fault :
  invoke (methods e) (func message) (args message) = Throws fault ->
  exists earlier,
    sent (handle_call message e)
    = earlier ++ [return_ex_message (transactionID message) (ex_to_send fault)].
Proof.
  intros Hthrow. unfold handle_call.
  destruct (decide (is_Some (methods e !! func message))); simpl;
    rewrite Hthrow; simpl; by eexists.
Qed.

Lemma handle_call_rejects message e fault :
  invoke (methods e) (func message) (args message)
  = ReturnsPromise (Rejects fault) ->
  handle_call message e
  = with_reactions (fun rs => rs ++ [(transactionID message, Rejects fault)]) e.
Proof.
  intros Hrej. rewrite handle_call_known; [by rewrite Hrej|].
  unfold invoke in Hrej. destruct (spread (args message)); [|done].
  by destruct (methods e !! func message) as [[impl|]|].
Qed.

(** C4, amended: for every fault the dispatcher catches, thrown during the
    invocation or given as the rejection reason of the method's promise,
    the [ex] field of the return envelope is the fault's message string
    when the fault is an [Error] instance, and the fault itself, unchanged,
    when it is any other kind of value. *)
Theorem caught_fault_error_field message e fault :
  type message = "call" ->
  (invoke (methods e) (func message) (args message) = Throws fault ->
   exists reply,
     last (sent (handler message e).1) = Some reply
     /\ error_reply fault (transactionID message) reply)
  /\ (invoke (methods e) (func message) (args message)
      = ReturnsPromise (Rejects fault) ->
      exists reply,
        sent (handler message e).1 = sent e
        /\ sent (run_reaction (length (reactions e)) (handler message e).1)
           = sent e ++ [reply]
        /\ error_reply fault (transactionID message) reply).
Proof.
  intros Hty. rewrite handler_call by done. simpl. split.
  - intros Hthrow. destruct (handle_call_throws message e fault Hthrow)
      as (earlier & ->).
    eexists. split; [apply last_snoc|apply ex_to_send_reply].
  - intros Hrej. rewrite (handle_call_rejects message e fault Hrej).
    eexists. split; [done|].
    rewrite (run_reaction_last (reactions e) (transactionID message)
               (Rejects fault)) by done.
    split; [done|apply ex_to_send_reply].
Qed.

Lemma caught_fault_error_field_witness :
  let call := call_message "UI:0" "boom" [] in
  type call = "call"
  /\ invoke (methods throwing) (func call) (args call) = Throws (JError "kaput")
  /\ exists reply,
       last (sent (handler call throwing).1) = Some reply
       /\ error_reply (JError "kaput") "UI:0" reply.
Proof.
  split; [reflexivity|]. split; [reflexivity|].
  apply (caught_fault_error_field (call_message "UI:0" "boom" []) throwing
           (JError "kaput")); reflexivity.
Defined.

(** C4 as stated fails when the fault is not an [Error] instance: a thrown
    number, and a number used as rejection reason, travel as they are. *)
Lemma thrown_number_sent_as_is :
  let thrown := handler (call_message "UI:0" "code" []) throwing in
  let refused := handler (call_message "UI:1" "refuse" []) throwing in
  invoke (methods throwing) "code" (JArray []) = Throws (JNumber 42)
  /\ sent thrown.1 = [return_ex_message "UI:0" (JNumber 42)]
  /\ invoke (methods throwing) "refuse" (JArray [])
     = ReturnsPromise (Rejects (JNumber 42))
  /\ sent (run_reaction 0 refused.1) = [return_ex_message "UI:1" (JNumber 42)]
  /\ ~ is_message_string (ex (return_ex_message "UI:0" (JNumber 42)))
  /\ ~ is_message_string (ex (return_ex_message "UI:1" (JNumber 42))).
Proof. vm_compute. split_and!; try reflexivity; by intros []. Qed.

(** The handler never raises while it processes a call envelope. *)
Lemma call_never_raises message e :
  type message = "call" -> (handler message e).2 = None.
Proof. intros Hty. by rewrite handler_call. Qed.

(** A thrown fault that is neither [undefined] nor [null] fails the
    caller's promise with the value derived from it. *)
Lemma thrown_fault_rejects message t e fault :
  register_ok e ->
  type message = "return" ->
  transactions e !! transactionID message = Some t ->
  ex message = ex_to_send fault ->
  fault <> JUndefined -> fault <> JNull ->
  promises (handler message e).1 !! promise t
  = Some (Rejected (ex_to_send fault)).
Proof.
  intros Hok Hty Hreg Hex Hu Hn.
  destruct (return_settles message t e Hok Hty Hreg) as (Hh & Hp & _).
  rewrite Hh. cbn [fst]. rewrite Hp, Hex. by destruct fault.
Qed.

(** C5: the code at a method that throws [null]. The fault is caught and
    nothing is raised, but the return envelope carries [ex: null], which the
    caller's handler reads as success: the caller's promise is fulfilled
    with [undefined] instead of failing. *)
Theorem thrown_null_reported_as_success :
  let call := call_message "UI:0" "nothing" [] in
  let b1 := (proxy_invoke (KString "nothing") [] sideB).1 in
  let a1 := handler call throwing in
  let b2 := handler (return_ex_message "UI:0" JNull) b1 in
  invoke (methods throwing) "nothing" (JArray []) = Throws JNull
  /\ sent b1 = [call]
  /\ promises b1 = [Pending]
  /\ a1.2 = None
  /\ sent a1.1 = [return_ex_message "UI:0" JNull]
  /\ b2.2 = None
  /\ promises b2.1 = [Fulfilled JUndefined].
Proof. vm_compute. repeat split. Qed.

(** ** The return branch *)

(** C6, amended: on a return envelope whose transaction id is registered,
    the pending promise is fulfilled with the envelope's [value], also when
    that value is [undefined], if the [ex] field is absent or [null];
    otherwise it is rejected with [ex]. *)
Theorem return_settles_pending_future message t e :
  type message = "return" ->
  transactions e !! transactionID message = Some t ->
  promises e !! promise t = Some Pending ->
  (handler message e).2 = None
  /\ (ex message = JUndefined \/ ex message = JNull ->
      promises (handler message e).1 !! promise t
      = Some (Fulfilled (value message)))
  /\ (ex message <> JUndefined -> ex message <> JNull ->
      promises (handler message e).1 !! promise t
      = Some (Rejected (ex message))).
Proof.
  intros Hty Hreg Hpend. rewrite (handler_return_found message t e Hty Hreg).
  unfold handle_return, resolvePromise, rejectPromise. simpl. split_and!.
  - done.
  - intros [-> | ->]; simpl; by apply settle_pending.
  - intros Hu Hn. destruct (ex message); simpl; try done;
      by apply settle_pending.
Qed.

Lemma return_settles_pending_future_witness :
  let t := {| t_transactionID := "UI:0"; promise := 0 |} in
  let message := return_value_message "UI:0" JUndefined in
  type message = "return"
  /\ transactions sideB_calling !! transactionID message = Some t
  /\ promises sideB_calling !! promise t = Some Pending
  /\ promises (handler message sideB_calling).1 !! promise t
     = Some (Fulfilled JUndefined)
  /\ promises (handler failed_return sideB_calling).1 !! promise t
     = Some (Rejected (JString "kaput")).
Proof.
  split; [reflexivity|]. split; [reflexivity|]. split; [reflexivity|]. split.
  - apply (return_settles_pending_future (return_value_message "UI:0" JUndefined)
             {| t_transactionID := "UI:0"; promise := 0 |} sideB_calling);
      [reflexivity|reflexivity|reflexivity|by left].
  - apply (return_settles_pending_future failed_return
             {| t_transactionID := "UI:0"; promise := 0 |} sideB_calling);
      [reflexivity|reflexivity|reflexivity|discriminate|discriminate].
Defined.

(** C6 as stated fails for an [ex] field that is present and [null]: the
    promise is fulfilled with the value, not rejected with [null]. *)
Lemma null_ex_counts_as_success :
  let t := {| t_transactionID := "UI:0"; promise := 0 |} in
  transactions sideB_calling !! "UI:0" = Some t
  /\ promises sideB_calling !! 0 = Some Pending
  /\ ex null_ex_return <> JUndefined
  /\ promises (handler null_ex_return sideB_calling).1 !! 0
     = Some (Fulfilled (JNumber 7))
  /\ ~ settles_by_absence null_ex_return t sideB_calling.
Proof.
  split; [reflexivity|]. split; [reflexivity|]. split; [discriminate|].
  split; [reflexivity|].
  intros [_ Hreject]. specialize (Hreject ltac:(discriminate)).
  vm_compute in Hreject. discriminate Hreject.
Qed.

(** ** At most one settlement per transaction *)

Lemma settled_not_registered e p s :
  register_ok e -> promises e !! p = Some s -> s <> Pending ->
  forall tid t, transactions e !! tid = Some t -> promise t <> p.
Proof.
  intros Hok Hp Hs tid t Hreg Heq.
  pose proof (ok_pending e Hok _ _ Hreg) as Hpend. congruence.
Qed.

(** C7: in every run of an engine, handling a return envelope for a
    registered transaction finds its promise pending, settles it, and
    removes the transaction from the register whether the call succeeded or
    failed; the same envelope arriving again raises a fault and changes
    nothing; and through everything that happens later the promise keeps
    its settled state and is never again held by a registered
    transaction. *)
Theorem settled_at_most_once ms opts evs message t :
  let e := run evs (collab ms opts) in
  type message = "return" ->
  transactions e !! transactionID message = Some t ->
  exists e' outcome,
    handler message e = (e', None)
    /\ promises e !! promise t = Some Pending
    /\ (outcome = Fulfilled (value message) \/ outcome = Rejected (ex message))
    /\ promises e' !! promise t = Some outcome
    /\ transactions e' = delete (transactionID message) (transactions e)
    /\ transactions e' !! transactionID message = None
    /\ (exists fault, handler message e' = (e', Some fault))
    /\ forall later : list Event,
         promises (run later e') !! promise t = Some outcome
         /\ forall tid' t',
              transactions (run later e') !! tid' = Some t' ->
              promise t' <> promise t.
Proof.
  intros e Hty Hreg.
  assert (Hok : register_ok e) by apply run_ok, collab_ok.
  destruct (return_settles message t e Hok Hty Hreg) as (Hh & Hp & Htx).
  set (outcome := match ex message with
                  | JUndefined | JNull => Fulfilled (value message)
                  | reason => Rejected reason
                  end) in Hp.
  assert (Hout : outcome <> Pending) by (unfold outcome; by destruct (ex message)).
  assert (Hgone : transactions (handle_return message t e)
                    !! transactionID message = None)
    by (rewrite Htx; apply lookup_delete_eq).
  exists (handle_return message t e), outcome. split_and!.
  - done.
  - by apply (ok_pending e Hok (transactionID message)).
  - unfold outcome. destruct (ex message); auto.
  - done.
  - done.
  - done.
  - eexists. by apply handler_return_unknown.
  - intros later.
    assert (Hkept : promises (run later (handle_return message t e))
                      !! promise t = Some outcome) by by apply run_keeps.
    split; [done|].
    apply (settled_not_registered _ _ outcome); [|done|done].
    by apply run_ok, handle_return_ok.
Qed.

Lemma settled_at_most_once_witness :
  let message := return_value_message "UI:0" (JNumber 5) in
  let t := {| t_transactionID := "UI:0"; promise := 0 |} in
  let e := run [Invoke (KString "add") [JNumber 2; JNumber 3]]
               (collab ∅ FigmaPluginUI) in
  type message = "return"
  /\ transactions e !! transactionID message = Some t
  /\ exists e' outcome,
       handler message e = (e', None)
       /\ promises e !! promise t = Some Pending
       /\ (outcome = Fulfilled (value message) \/ outcome = Rejected (ex message))
       /\ promises e' !! promise t = Some outcome
       /\ transactions e' = delete (transactionID message) (transactions e)
       /\ transactions e' !! transactionID message = None
       /\ (exists fault, handler message e' = (e', Some fault))
       /\ forall later : list Event,
            promises (run later e') !! promise t = Some outcome
            /\ forall tid' t',
                 transactions (run later e') !! tid' = Some t' ->
                 promise t' <> promise t.
Proof.
  split; [reflexivity|]. split; [reflexivity|].
  apply (settled_at_most_once ∅ FigmaPluginUI
           [Invoke (KString "add") [JNumber 2; JNumber 3]]
           (return_value_message "UI:0" (JNumber 5))
           {| t_transactionID := "UI:0"; promise := 0 |});
    reflexivity.
Defined.

(** ** Distinct ids, distinct promises *)

Lemma minted_NoDup e : register_ok e -> NoDup (minted e).
Proof.
  intros Hok. rewrite (ok_minted e Hok).
  apply NoDup_fmap_2; [|apply NoDup_seq].
  intros i j Heq%label_inj. lia.
Qed.

(** C8: in every run of an engine the ids minted by its proxy calls are, in
    order, the instance name joined with 0, 1, 2, ..., one per call up to
    the counter, hence pairwise distinct; and handling a return envelope
    settles the promise registered under the envelope's id and no other:
    every other promise is as it was, and a transaction registered under
    another id stays registered with its promise pending. *)
Theorem transaction_ids_distinct ms opts evs :
  let e := run evs (collab ms opts) in
  minted e
  = (fun i => label opts (N.of_nat i)) <$> seq 0 (N.to_nat (nextTransactionIndex e))
  /\ NoDup (minted e)
  /\ (mint e ∉ minted e)
  /\ forall message ta,
       type message = "return" ->
       transactions e !! transactionID message = Some ta ->
       let e' := (handler message e).1 in
       promises e !! promise ta = Some Pending
       /\ promises e' !! promise ta <> Some Pending
       /\ (forall p, p <> promise ta -> promises e' !! p = promises e !! p)
       /\ forall tidB tb,
            tidB <> transactionID message ->
            transactions e !! tidB = Some tb ->
            promise tb <> promise ta
            /\ promises e' !! promise tb = Some Pending
            /\ transactions e' !! tidB = Some tb.
Proof.
  intros e.
  assert (Hok : register_ok e) by apply run_ok, collab_ok.
  assert (Hopts : options e = opts) by (unfold e; by rewrite run_options).
  split_and!.
  - rewrite <- Hopts. apply (ok_minted e Hok).
  - by apply minted_NoDup.
  - rewrite (ok_minted e Hok), mint_label.
    intros Hin. apply list_elem_of_fmap in Hin as (i & Heq & Hi).
    apply label_inj in Heq. apply elem_of_seq in Hi. lia.
  - intros message ta Hty Hreg e'.
    destruct (return_settles message ta e Hok Hty Hreg) as (Hh & Hp & Htx).
    assert (Hother : forall p, p <> promise ta ->
                       promises e' !! p = promises e !! p).
    { intros p Hne. unfold e'. rewrite Hh. cbn [fst].
      unfold handle_return, resolvePromise, rejectPromise.
      destruct (ex message); simpl; by apply settle_other. }
    split_and!.
    + by apply (ok_pending e Hok (transactionID message)).
    + unfold e'. rewrite Hh. cbn [fst]. rewrite Hp. by destruct (ex message).
    + done.
    + intros tidB tb Hne HregB.
      assert (Hpne : promise tb <> promise ta).
      { intros Heq. apply Hne.
        by apply (ok_distinct e Hok tidB (transactionID message) tb ta). }
      split_and!.
      * done.
      * rewrite Hother by done. by apply (ok_pending e Hok tidB).
      * unfold e'. rewrite Hh. cbn [fst]. rewrite Htx.
        by rewrite lookup_delete_ne.
Qed.

Lemma transaction_ids_distinct_witness :
  let e := run [Invoke (KString "add") []; Invoke (KString "slow") []]
               (collab ∅ FigmaPluginUI) in
  let message := return_value_message "UI:1" (JString "done") in
  let ta := {| t_transactionID := "UI:1"; promise := 1 |} in
  let tb := {| t_transactionID := "UI:0"; promise := 0 |} in
  minted e = ["UI:0"; "UI:1"]
  /\ type message = "return"
  /\ transactions e !! transactionID message = Some ta
  /\ "UI:0" <> transactionID message
  /\ transactions e !! "UI:0" = Some tb
  /\ promises (handler message e).1 !! promise tb = Some Pending
  /\ transactions (handler message e).1 !! "UI:0" = Some tb.
Proof.
  split; [reflexivity|]. split; [reflexivity|]. split; [reflexivity|].
  split; [discriminate|]. split; [reflexivity|].
  pose proof (transaction_ids_distinct ∅ FigmaPluginUI
                [Invoke (KString "add") []; Invoke (KString "slow") []])
    as (_ & _ & _ & Hreturn).
  destruct (Hreturn (return_value_message "UI:1" (JString "done"))
              {| t_transactionID := "UI:1"; promise := 1 |}
              eq_refl eq_refl) as (_ & _ & _ & Hother).
  destruct (Hother "UI:0" {| t_transactionID := "UI:0"; promise := 0 |})
    as (_ & Hpend & Hkept); [discriminate|reflexivity|].
  split; [exact Hpend|exact Hkept].
Defined.

(** ** Protocol-integrity faults *)

(** C9: a return envelope whose transaction id is not in the register, and
    an envelope whose type is neither [call] nor [return], make the handler
    raise an [Error] that describes the condition; the engine is left
    exactly as it was, so no promise is settled and no register entry is
    created or removed. *)
Theorem protocol_faults_are_raised message e :
  (type message = "return" ->
   transactions e !! transactionID message = None ->
   handler message e
   = (e, Some (JError ("Return value for unknown transaction ID "
                         +:+ transactionID message +:+ " arrived!"))))
  /\ (type message <> "call" -> type message <> "return" ->
      handler message e
      = (e, Some (JError ("Unknown message with type " +:+ type message
                            +:+ " arrived!")))).
Proof.
  split; [apply handler_return_unknown|apply handler_other].
Qed.

Lemma protocol_faults_are_raised_witness :
  type failed_return = "return"
  /\ transactions sideB !! transactionID failed_return = None
  /\ handler failed_return sideB
     = (sideB, Some (JError "Return value for unknown transaction ID UI:0 arrived!"))
  /\ type odd_message <> "call"
  /\ type odd_message <> "return"
  /\ handler odd_message sideB_calling
     = (sideB_calling, Some (JError "Unknown message with type ping arrived!")).
Proof.
  split; [reflexivity|]. split; [reflexivity|]. split.
  { apply (protocol_faults_are_raised failed_return sideB); reflexivity. }
  split; [discriminate|]. split; [discriminate|].
  apply (protocol_faults_are_raised odd_message sideB_calling); discriminate.
Defined.

(** The handler raises in these two cases only. *)
Lemma handler_raises_only_protocol_faults message e fault :
  (handler message e).2 = Some fault ->
  (type message = "return" /\ transactions e !! transactionID message = None)
  \/ (type message <> "call" /\ type message <> "return").
Proof.
  unfold handler.
  destruct (decide (type message = "call")); [done|].
  destruct (decide (type message = "return")); [|by right].
  destruct (transactions e !! transactionID message) eqn:Hreg; [done|by left].
Qed.

(** ** [cleanupProxy] *)

Lemma step_cleanupFunction e ev : cleanupFunction (step e ev) = cleanupFunction e.
Proof.
  destruct ev as [prop argv|message|k]; simpl.
  - unfold proxy_invoke, proxy_get. destruct prop as [f|d]; simpl; [|done].
    destruct (decide (f = "cleanupProxy")); simpl; [|done].
    destruct (cleanupFunction e) eqn:Hc; simpl; by rewrite ?Hc.
  - destruct (listening e); [|done]. unfold handler.
    destruct (decide (type message = "call")); simpl.
    { apply handle_call_frame. }
    destruct (decide (type message = "return")); simpl; [|done].
    destruct (transactions e !! transactionID message); simpl; [|done].
    unfold handle_return. by destruct (ex message).
  - apply run_reaction_frame.
Qed.

Lemma run_cleanupFunction evs e : cleanupFunction (run evs e) = cleanupFunction e.
Proof.
  revert e. induction evs as [|ev evs IH]; intros e; [done|].
  simpl. by rewrite IH, step_cleanupFunction.
Qed.

Lemma cleanupFunction_of_run ms opts evs :
  cleanupFunction (run evs (collab ms opts)) = (toHandleMessage opts false).2.
Proof. by rewrite run_cleanupFunction. Qed.

Lemma invoke_cleanup_defined e cleanup :
  cleanupFunction e = Some cleanup ->
  proxy_get (KString "cleanupProxy") e = inl (PCleanup (Some cleanup))
  /\ proxy_invoke (KString "cleanupProxy") [] e
     = (with_listening cleanup e, ReturnedUndefined).
Proof. intros Hc. unfold proxy_invoke, proxy_get. simpl. by rewrite Hc. Qed.

Lemma invoke_cleanup_undefined e :
  cleanupFunction e = None ->
  proxy_get (KString "cleanupProxy") e = inl (PCleanup None)
  /\ proxy_invoke (KString "cleanupProxy") [] e
     = (e, Thrown (JError (not_a_function_message "proxy.cleanupProxy"))).
Proof. intros Hc. unfold proxy_invoke, proxy_get. simpl. by rewrite Hc. Qed.

(** C10: [proxy.cleanupProxy] is whatever [options.toHandleMessage]
    returned. When the adapter returned nothing the property is
    [undefined], and calling it throws at the call site and leaves the
    engine, its handler registration included, as it was; when the adapter
    returned a cleanup function the property is that function, and calling
    it runs it on the adapter's handler slot. *)
Theorem cleanupProxy_is_adapter_result ms opts evs :
  let e := run evs (collab ms opts) in
  ((toHandleMessage opts false).2 = None ->
   proxy_get (KString "cleanupProxy") e = inl (PCleanup None)
   /\ exists text,
        proxy_invoke (KString "cleanupProxy") [] e = (e, Thrown (JError text)))
  /\ (forall cleanup,
        (toHandleMessage opts false).2 = Some cleanup ->
        proxy_get (KString "cleanupProxy") e = inl (PCleanup (Some cleanup))
        /\ proxy_invoke (KString "cleanupProxy") [] e
           = (with_listening cleanup e, ReturnedUndefined)
        /\ listening (proxy_invoke (KString "cleanupProxy") [] e).1
           = cleanup (listening e)).
Proof.
  intros e.
  pose proof (cleanupFunction_of_run ms opts evs) as Hc. fold e in Hc.
  split.
  - intros Hnone. rewrite Hnone in Hc.
    destruct (invoke_cleanup_undefined e Hc) as [Hget Hinvoke].
    split; [done|by eexists].
  - intros cleanup Hsome. rewrite Hsome in Hc.
    destruct (invoke_cleanup_defined e cleanup Hc) as [Hget Hinvoke].
    split_and!; [done|done|by rewrite Hinvoke].
Qed.

Lemma cleanupProxy_is_adapter_result_witness :
  (toHandleMessage BareAdapter false).2 = None
  /\ (exists text,
        proxy_invoke (KString "cleanupProxy") [] (run [] (collab ∅ BareAdapter))
        = (run [] (collab ∅ BareAdapter), Thrown (JError text)))
  /\ (toHandleMessage FigmaPluginUI false).2 = Some (fun _ => false)
  /\ listening (proxy_invoke (KString "cleanupProxy") []
                  (run [] (collab ∅ FigmaPluginUI))).1 = false.
Proof.
  split; [reflexivity|]. split.
  { destruct (cleanupProxy_is_adapter_result ∅ BareAdapter []) as [Hnone _].
    destruct (Hnone eq_refl) as [_ Hthrow]. exact Hthrow. }
  split; [reflexivity|].
  destruct (cleanupProxy_is_adapter_result ∅ FigmaPluginUI []) as [_ Hsome].
  destruct (Hsome (fun _ => false) eq_refl) as (_ & _ & Hl). exact Hl.
Defined.

(** With the adapters of [figma.ts] the cleanup empties the handler slot,
    and envelopes delivered afterwards no longer reach the handler. *)
Lemma figma_cleanup_unregisters ms evs message :
  let e := (useCollab_unmount (run evs (collab ms FigmaPluginUI))).1 in
  listening e = false /\ step e (Receive message) = e.
Proof.
  intros e.
  destruct (invoke_cleanup_defined (run evs (collab ms FigmaPluginUI))
              (fun _ => false) (cleanupFunction_of_run ms FigmaPluginUI evs))
    as [_ Hinvoke].
  assert (Hoff : listening e = false)
    by (unfold e, useCollab_unmount; by rewrite Hinvoke).
  split; [done|]. simpl. by rewrite Hoff.
Qed.

(** With an adapter that returns nothing, unmounting the React hook
    throws. *)
Example bare_unmount_throws :
  useCollab_unmount (collab ∅ BareAdapter)
  = (collab ∅ BareAdapter, Thrown (JError "proxy.cleanupProxy is not a function")).
Proof. reflexivity. Qed.

(** * Further properties of the engine *)

(** ** When the handler raises *)



(** ** Incoming calls and outgoing transactions *)



(** ** Calls that cannot be carried out *)

(** For a call envelope that names a property missing from [methods], the
    handler writes one line to the console and sends two return envelopes
    under the call's id, the unknown-method [Error] and then the message of
    the [TypeError] raised by the attempted invocation; it raises nothing
    and queues no reaction. *)
Theorem unknown_method_logged_and_answered message e :
  type message = "call" ->
  methods e !! func message = None ->
  exists text,
    handler message e = (handle_call message e, None)
    /\ console (handle_call message e)
       = console e ++ ["Message to call unknown method " +:+ dquote
                         +:+ func message +:+ dquote +:+ " arrived!"]
    /\ sent (handle_call message e)
       = sent e ++ [return_ex_message (transactionID message)
                      (unknown_method_error (func message));
                    return_ex_message (transactionID message) (JString text)]
    /\ reactions (handle_call message e) = reactions e.
Proof.
  intros Hty Hnone.
  exists (match spread (args message) with
          | None => not_iterable_message
          | Some _ => not_a_function_message "methods[message.func]"
          end).
  split; [by apply handler_call|].
  assert (Hc : handle_call message e
    = toSendMessage
        (return_ex_message (transactionID message)
           (JString (match spread (args message) with
                     | None => not_iterable_message
                     | Some _ => not_a_function_message "methods[message.func]"
                     end)))
        (toSendMessage
           (return_ex_message (transactionID message)
              (unknown_method_error (func message)))
           (console_error
              ("Message to call unknown method " +:+ dquote +:+ func message
                 +:+ dquote +:+ " arrived!") e))).
  { unfold handle_call, invoke.
    rewrite decide_False by (rewrite Hnone; by intros [? ?]).
    simpl. rewrite Hnone. by destruct (spread (args message)). }
  rewrite Hc. simpl. split_and!; [done|by rewrite <- app_assoc|done].
Qed.

Lemma unknown_method_logged_and_answered_witness :
  let call := call_message "UI:7" "missing" [] in
  type call = "call"
  /\ methods sideA !! func call = None
  /\ exists text,
       handler call sideA = (handle_call call sideA, None)
       /\ console (handle_call call sideA)
          = console sideA ++ ["Message to call unknown method " +:+ dquote
                                +:+ func call +:+ dquote +:+ " arrived!"]
       /\ sent (handle_call call sideA)
          = sent sideA ++ [return_ex_message (transactionID call)
                             (unknown_method_error (func call));
                           return_ex_message (transactionID call) (JString text)]
       /\ reactions (handle_call call sideA) = reactions sideA.
Proof.
  split; [reflexivity|]. split; [reflexivity|].
  apply (unknown_method_logged_and_answered (call_message "UI:7" "missing" [])
           sideA); reflexivity.
Defined.

(** For a call envelope that names a property of [methods] which cannot be
    invoked, because the property is not a function or because [args] is
    not iterable, the handler sends exactly one return envelope under the
    call's id whose [ex] is a message string; it writes nothing to the
    console, queues no reaction and raises nothing. *)
Theorem uninvokable_call_answered_once message e :
  type message = "call" ->
  is_Some (methods e !! func message) ->
  spread (args message) = None
  \/ (exists v, methods e !! func message = Some (PData v)) ->
  exists text,
    handler message e
    = (toSendMessage (return_ex_message (transactionID message) (JString text)) e,
       None).
Proof.
  intros Hty Hin Hbad. rewrite handler_call by done.
  rewrite handle_call_known by done. unfold invoke.
  destruct Hbad as [Hspread | [v Hdata]].
  - rewrite Hspread. by eexists.
  - rewrite Hdata. destruct (spread (args message)); by eexists.
Qed.

Lemma uninvokable_call_answered_once_witness :
  let call := call_message "UI:0" "version" [] in
  type call = "call"
  /\ methods withData !! func call = Some (PData (JNumber 3))
  /\ type call_without_args = "call"
  /\ is_Some (methods withData !! func call_without_args)
  /\ spread (args call_without_args) = None
  /\ (exists text,
        handler call withData
        = (toSendMessage (return_ex_message (transactionID call) (JString text))
             withData, None))
  /\ (exists text,
        handler call_without_args withData
        = (toSendMessage
             (return_ex_message (transactionID call_without_args) (JString text))
             withData, None)).
Proof.
  split; [reflexivity|]. split; [reflexivity|]. split; [reflexivity|].
  split; [by eexists|]. split; [reflexivity|]. split.
  - apply (uninvokable_call_answered_once (call_message "UI:0" "version" [])
             withData); [reflexivity|by eexists|right; by eexists].
  - apply (uninvokable_call_answered_once call_without_args withData);
      [reflexivity|by eexists|by left].
Defined.

(** ** What a run sends *)

Lemma run_snoc evs ev e : run (evs ++ [ev]) e = step (run evs e) ev.
Proof. unfold run. by rewrite foldl_snoc. Qed.

Lemma handle_call_sent_inv message e m :
  m ∈ sent (handle_call message e) ->
  m ∈ sent e
  \/ (methods e !! func message = None
      /\ m = return_ex_message (transactionID message)
               (unknown_method_error (func message)))
  \/ (exists v, invoke (methods e) (func message) (args message) = Returns v
                /\ m = return_value_message (transactionID message) v)
  \/ (exists fault,
        invoke (methods e) (func message) (args message) = Throws fault
        /\ m = return_ex_message (transactionID message) (ex_to_send fault)).
Proof.
  unfold handle_call.
  destruct (decide (is_Some (methods e !! func message))) as [Hin|Hout]; simpl.
  - destruct (invoke (methods e) (func message) (args message)) eqn:Hinv; simpl.
    + intros [Hm | ->%list_elem_of_singleton]%elem_of_app; [by left|].
      right; right; left. by eexists.
    + by left.
    + intros [Hm | ->%list_elem_of_singleton]%elem_of_app; [by left|].
      right; right; right. by eexists.
  - assert (Hnone : methods e !! func message = None)
      by (destruct (methods e !! func message) eqn:Hl; [by destruct Hout|done]).
    destruct (invoke (methods e) (func message) (args message)) eqn:Hinv; simpl;
      rewrite ?elem_of_app, ?list_elem_of_singleton;
      intros Hm; destruct_or?; subst; eauto 10.
Qed.

Lemma step_sent_inv e ev m :
  m ∈ sent (step e ev) -> m ∈ sent e \/ produces e ev m.
Proof.
  destruct ev as [[f|d] argv|message|k]; simpl.
  - unfold proxy_invoke, proxy_get. simpl.
    destruct (decide (f = "cleanupProxy")); simpl.
    { destruct (cleanupFunction e); simpl; by left. }
    intros [Hm | ->%list_elem_of_singleton]%elem_of_app; [by left|].
    right. by constructor.
  - by left.
  - destruct (listening e) eqn:Hl; [|by left]. unfold handler.
    destruct (decide (type message = "call")) as [Hty|]; simpl.
    + intros [Hm | [[Hn ->] | [[v [Hv ->]] | [fault [Hf ->]]]]]%handle_call_sent_inv;
        [by left|right..]; by constructor.
    + destruct (decide (type message = "return")); simpl; [|by left].
      destruct (transactions e !! transactionID message); simpl; [|by left].
      unfold handle_return. destruct (ex message); simpl; by left.
  - unfold run_reaction.
    destruct (reactions e !! k) as [[tid [v|reason|]]|] eqn:Hk; simpl;
      try (by left);
      (intros [Hm | ->%list_elem_of_singleton]%elem_of_app; [by left|]);
      right; by constructor.
Qed.

Lemma step_reactions_inv e ev tid fate :
  (tid, fate) ∈ reactions (step e ev) ->
  (tid, fate) ∈ reactions e
  \/ exists message,
       ev = Receive message /\ type message = "call"
       /\ tid = transactionID message.
Proof.
  destruct ev as [[f|d] argv|message|k]; simpl.
  - unfold proxy_invoke, proxy_get. simpl.
    destruct (decide (f = "cleanupProxy")); simpl; [|by left].
    destruct (cleanupFunction e); simpl; by left.
  - by left.
  - destruct (listening e); [|by left]. unfold handler.
    destruct (decide (type message = "call")) as [Hty|]; simpl.
    + split_call; try (by left);
        (intros [Hm | Heq%list_elem_of_singleton]%elem_of_app; [by left|]);
        right; exists message; by simplify_eq.
    + destruct (decide (type message = "return")); simpl; [|by left].
      destruct (transactions e !! transactionID message); simpl; [|by left].
      unfold handle_return. destruct (ex message); simpl; by left.
  - unfold run_reaction.
    destruct (reactions e !! k) as [[tid' [v|reason|]]|]; simpl;
      try (by left); intros Hin%list_elem_of_delete_inv; by left.
Qed.

Lemma call_ids_received_snoc evs ev :
  call_ids_received (evs ++ [ev])
  = call_ids_received evs ++ call_ids_received [ev].
Proof. unfold call_ids_received. by rewrite omap_app. Qed.

Lemma answers_received_calls ms opts evs :
  (forall m, m ∈ sent (run evs (collab ms opts)) -> type m = "return" ->
             transactionID m ∈ call_ids_received evs)
  /\ (forall tid fate, (tid, fate) ∈ reactions (run evs (collab ms opts)) ->
                       tid ∈ call_ids_received evs).
Proof.
  induction evs as [|ev evs [IHs IHr]] using rev_ind.
  { split; simpl; intros; by apply not_elem_of_nil in H. }
  rewrite run_snoc, call_ids_received_snoc.
  assert (Hnew : forall message, ev = Receive message -> type message = "call" ->
            transactionID message ∈ call_ids_received [ev]).
  { intros message -> Hty. unfold call_ids_received. simpl.
    rewrite decide_True by done. apply list_elem_of_here. }
  split.
  - intros m [Hold | Hprod]%step_sent_inv Hty; apply elem_of_app.
    + left. by apply IHs.
    + destruct Hprod; try discriminate Hty; simpl;
        try (right; by eapply Hnew);
        left; eapply IHr, list_elem_of_lookup_2; eassumption.
  - intros tid fate [Hold | (message & -> & Hty & ->)]%step_reactions_inv;
      apply elem_of_app; [left; by eapply IHr|right; by eapply Hnew].
Qed.

(** Along every run, each return envelope the engine has sent carries the
    transaction id of a call envelope that was delivered to it: the engine
    never answers a call it did not receive. *)
Theorem returns_answer_received_calls ms opts evs m :
  m ∈ sent (run evs (collab ms opts)) ->
  type m = "return" ->
  transactionID m ∈ call_ids_received evs.
Proof. apply answers_received_calls. Qed.

Lemma returns_answer_received_calls_witness :
  let evs := [Receive (call_message "UI:0" "add" [JNumber 2; JNumber 3])] in
  let m := return_value_message "UI:0" (JNumber 5) in
  m ∈ sent (run evs sideA)
  /\ type m = "return"
  /\ transactionID m ∈ call_ids_received evs.
Proof.
  assert (Hin : return_value_message "UI:0" (JNumber 5)
                  ∈ sent (run [Receive (call_message "UI:0" "add"
                                          [JNumber 2; JNumber 3])] sideA))
    by (vm_compute; apply list_elem_of_here).
  split; [exact Hin|]. split; [reflexivity|].
  apply (returns_answer_received_calls
           {[ "add" := add; "slow" := slow ]} FigmaPlugin
           [Receive (call_message "UI:0" "add" [JNumber 2; JNumber 3])]
           (return_value_message "UI:0" (JNumber 5)) Hin eq_refl).
Defined.

(** Along every run, the only [Error] object the engine ever puts in an
    envelope is the unknown-method error of a return envelope; every other
    [ex] it sends is not an [Error] instance. *)
Theorem only_unknown_method_sends_Error ms opts evs m :
  m ∈ sent (run evs (collab ms opts)) ->
  is_Error (ex m) ->
  type m = "return" /\ exists f, ex m = unknown_method_error f.
Proof.
  revert m. induction evs as [|ev evs IH] using rev_ind; intros m.
  { simpl. intros H. by apply not_elem_of_nil in H. }
  rewrite run_snoc. intros [Hold | Hprod]%step_sent_inv Herr; [by apply IH|].
  destruct Hprod; simpl in *; try done;
    try (split; [done|by eexists]);
    match goal with
    | H : is_Error (ex_to_send ?v) |- _ => by destruct v
    end.
Qed.

Lemma only_unknown_method_sends_Error_witness :
  let evs := [Receive (call_message "UI:0" "missing" [])] in
  let m := return_ex_message "UI:0" (unknown_method_error "missing") in
  m ∈ sent (run evs sideA)
  /\ is_Error (ex m)
  /\ type m = "return"
  /\ exists f, ex m = unknown_method_error f.
Proof.
  assert (Hin : return_ex_message "UI:0" (unknown_method_error "missing")
                  ∈ sent (run [Receive (call_message "UI:0" "missing" [])] sideA))
    by (vm_compute; apply list_elem_of_here).
  split; [exact Hin|]. split; [exact I|].
  apply (only_unknown_method_sends_Error
           {[ "add" := add; "slow" := slow ]} FigmaPlugin
           [Receive (call_message "UI:0" "missing" [])]
           (return_ex_message "UI:0" (unknown_method_error "missing")) Hin I).
Defined.

(** ** The call envelopes of a run *)

Lemma calls_sent_toSendMessage m e :
  calls_sent (toSendMessage m e)
  = calls_sent e ++ (if decide (type m = "call") then [m] else []).
Proof.
  unfold calls_sent. simpl. rewrite filter_app. by f_equal.
Qed.

Lemma call_leaves_register_alone_aux message e :
  calls_sent (handle_call message e) = calls_sent e
  /\ nextTransactionIndex (handle_call message e) = nextTransactionIndex e
  /\ promises (handle_call message e) = promises e.
Proof.
  destruct (handle_call_frame message e) as (_ & Hp & Hn & _).
  split_and!; [|done|done].
  split_call; unfold calls_sent; simpl; rewrite ?filter_app; simpl;
    rewrite ?app_nil_r; done.
Qed.

Lemma step_calls_sent e ev :
  calls_sent (step e ev)
  = calls_sent e
    ++ ((fun fa => call_message (mint e) fa.1 fa.2) <$> remote_invocations [ev])
  /\ nextTransactionIndex (step e ev)
     = (nextTransactionIndex e + N.of_nat (length (remote_invocations [ev])))%N
  /\ length (promises (step e ev))
     = length (promises e) + length (remote_invocations [ev]).
Proof.
  destruct ev as [[f|d] argv|message|k]; simpl.
  - unfold proxy_invoke, proxy_get. simpl.
    destruct (decide (f = "cleanupProxy")); simpl.
    { destruct (cleanupFunction e); simpl;
        rewrite app_nil_r; split_and!; (done || lia). }
    rewrite length_app. simpl. split_and!; [|lia|done].
    by rewrite calls_sent_toSendMessage.
  - rewrite app_nil_r. split_and!; (done || lia).
  - rewrite app_nil_r.
    destruct (listening e); [|split_and!; (done || lia)].
    unfold handler.
    destruct (decide (type message = "call")) as [Hty|]; simpl.
    + destruct (call_leaves_register_alone_aux message e) as (Hc & Hn & Hp).
      rewrite Hc, Hn, Hp. split_and!; (done || lia).
    + destruct (decide (type message = "return")); simpl;
        [|split_and!; (done || lia)].
      destruct (transactions e !! transactionID message); simpl;
        [|split_and!; (done || lia)].
      unfold handle_return, resolvePromise, rejectPromise, settle.
      destruct (ex message); simpl;
        repeat case_match; rewrite ?length_insert;
        split_and!; (done || lia).
  - rewrite app_nil_r.
    destruct (run_reaction_frame k e) as (_ & Hp & Hn & _).
    rewrite Hp, Hn. split_and!; [|lia|lia].
    unfold run_reaction.
    destruct (reactions e !! k) as [[tid [v|reason|]]|]; simpl; try done;
      rewrite calls_sent_toSendMessage; simpl; by rewrite app_nil_r.
Qed.

Lemma remote_invocations_snoc evs ev :
  remote_invocations (evs ++ [ev])
  = remote_invocations evs ++ remote_invocations [ev].
Proof. unfold remote_invocations. by rewrite omap_app. Qed.

Lemma remote_invocations_one ev : length (remote_invocations [ev]) <= 1.
Proof.
  destruct ev as [[f|d] argv|message|k]; simpl; try lia.
  destruct (decide (f = "cleanupProxy")); simpl; lia.
Qed.

Lemma run_calls_sent evs e0 :
  calls_sent (run evs e0)
  = calls_sent e0
    ++ imap (fun i fa =>
               call_message
                 (label (options e0) (nextTransactionIndex e0 + N.of_nat i))
                 fa.1 fa.2)
            (remote_invocations evs)
  /\ nextTransactionIndex (run evs e0)
     = (nextTransactionIndex e0 + N.of_nat (length (remote_invocations evs)))%N
  /\ length (promises (run evs e0))
     = length (promises e0) + length (remote_invocations evs).
Proof.
  induction evs as [|ev evs (IHc & IHn & IHp)] using rev_ind.
  { simpl. rewrite app_nil_r. split_and!; (done || lia). }
  rewrite run_snoc, remote_invocations_snoc.
  destruct (step_calls_sent (run evs e0) ev) as (Hc & Hn & Hp).
  rewrite Hc, Hn, Hp, IHc, IHn, IHp, length_app, imap_app, <- app_assoc.
  split_and!; [|lia|lia].
  do 2 f_equal. rewrite mint_label, run_options, IHn.
  pose proof (remote_invocations_one ev) as Hone.
  destruct (remote_invocations [ev]) as [|fa [|fb rest]]; simpl in *;
    [done| |lia].
  by rewrite Nat.add_0_r.
Qed.

(** Along every run, the call envelopes the engine has sent are, in order,
    one per use of the proxy under a string name other than [cleanupProxy]:
    the i-th carries that use's method name and argument list under the id
    made of the engine's name and i. The counter and the number of promises
    both equal the number of such uses. *)
Theorem calls_sent_in_order ms opts evs :
  calls_sent (run evs (collab ms opts))
  = imap (fun i fa => call_message (label opts (N.of_nat i)) fa.1 fa.2)
         (remote_invocations evs)
  /\ nextTransactionIndex (run evs (collab ms opts))
     = N.of_nat (length (remote_invocations evs))
  /\ length (promises (run evs (collab ms opts)))
     = length (remote_invocations evs).
Proof.
  destruct (run_calls_sent evs (collab ms opts)) as (Hc & Hn & Hp).
  split_and!; [|by rewrite Hn|by rewrite Hp].
  rewrite Hc. simpl. apply imap_ext. intros i fa _. by rewrite N.add_0_l.
Qed.

(** ** Pending promises and the register *)

Lemma step_no_orphan e ev :
  register_ok e ->
  (forall p, promises e !! p = Some Pending ->
             exists tid t, transactions e !! tid = Some t /\ promise t = p) ->
  forall p, promises (step e ev) !! p = Some Pending ->
            exists tid t, transactions (step e ev) !! tid = Some t /\ promise t = p.
Proof.
  intros Hok Hreg. destruct ev as [[f|d] argv|message|k]; simpl.
  - unfold proxy_invoke, proxy_get. simpl.
    destruct (decide (f = "cleanupProxy")); simpl.
    { destruct (cleanupFunction e); simpl; done. }
    intros p [Hold | [Hlen Hnew]]%lookup_app_Some.
    + destruct (Hreg p Hold) as (tid & t & Ht & Hp). exists tid, t.
      split; [|done]. rewrite lookup_insert_ne; [done|].
      destruct (ok_below e Hok _ _ Ht) as (i & Hi & ->).
      rewrite mint_label. intros Heq%label_inj. lia.
    + exists (mint e), {| t_transactionID := mint e; promise := length (promises e) |}.
      split; [by rewrite lookup_insert_eq|].
      simpl. apply lookup_lt_Some in Hnew. simpl in Hnew. lia.
  - done.
  - destruct (listening e); [|done]. unfold handler.
    destruct (decide (type message = "call")); simpl.
    { destruct (handle_call_frame message e) as (-> & -> & _). done. }
    destruct (decide (type message = "return")) as [Hty|]; simpl; [|done].
    destruct (transactions e !! transactionID message) as [t|] eqn:Ht;
      cbn [fst]; [|done].
    intros p Hp.
    destruct (return_settles message t e Hok Hty Ht) as (_ & Hset & Htx).
    destruct (decide (p = promise t)) as [->|Hne].
    { rewrite Hset in Hp. by destruct (ex message). }
    assert (Hsame : promises (handle_return message t e) !! p = promises e !! p).
    { unfold handle_return, resolvePromise, rejectPromise.
      destruct (ex message); simpl; by apply settle_other. }
    rewrite Hsame in Hp. destruct (Hreg p Hp) as (tid & t' & Ht' & Hpt).
    exists tid, t'. split; [|done]. rewrite Htx, lookup_delete_ne; [done|].
    intros <-. rewrite Ht in Ht'. by simplify_eq.
  - destruct (run_reaction_frame k e) as (-> & -> & _). done.
Qed.

Lemma run_no_orphan evs e :
  register_ok e ->
  (forall p, promises e !! p = Some Pending ->
             exists tid t, transactions e !! tid = Some t /\ promise t = p) ->
  forall p, promises (run evs e) !! p = Some Pending ->
            exists tid t, transactions (run evs e) !! tid = Some t /\ promise t = p.
Proof.
  revert e. induction evs as [|ev evs IH]; intros e Hok Hreg; [done|].
  simpl. apply IH; [by apply step_ok|by apply step_no_orphan].
Qed.

(** Along every run, a promise handed out by the proxy is pending exactly
    when a transaction holding it is in the register: the engine never
    loses track of a promise that can still be settled, and never keeps a
    transaction whose promise is settled. *)
Theorem pending_iff_registered ms opts evs p :
  promises (run evs (collab ms opts)) !! p = Some Pending
  <-> exists tid t,
        transactions (run evs (collab ms opts)) !! tid = Some t
        /\ promise t = p.
Proof.
  split.
  - apply run_no_orphan; [apply collab_ok|]. simpl. intros q Hq.
    by rewrite lookup_nil in Hq.
  - intros (tid & t & Ht & <-).
    by apply (ok_pending _ (run_ok evs _ (collab_ok ms opts)) tid).
Qed.

Lemma pending_iff_registered_witness :
  let evs := [Invoke (KString "add") []; Invoke (KString "slow") [];
              Receive (return_value_message "UI:0" (JNumber 5))] in
  promises (run evs (collab ∅ FigmaPluginUI)) !! 1 = Some Pending
  /\ exists tid t,
       transactions (run evs (collab ∅ FigmaPluginUI)) !! tid = Some t
       /\ promise t = 1.
Proof.
  split; [reflexivity|].
  apply (pending_iff_registered ∅ FigmaPluginUI
           [Invoke (KString "add") []; Invoke (KString "slow") [];
            Receive (return_value_message "UI:0" (JNumber 5))] 1).
  reflexivity.
Defined.

(** Along every run, a registered transaction stays registered, with its
    promise pending, through every later event that is not the arrival of a
    return envelope for its id: nothing but its own return settles or
    drops it, and nothing times it out. *)
Theorem pending_until_own_return ms opts evs tid t later :
  transactions (run evs (collab ms opts)) !! tid = Some t ->
  Forall (quiet tid) later ->
  transactions (run later (run evs (collab ms opts))) !! tid = Some t
  /\ promises (run later (run evs (collab ms opts))) !! promise t = Some Pending.
Proof.
  intros Hreg Hquiet.
  assert (Hok : register_ok (run evs (collab ms opts))) by apply run_ok, collab_ok.
  pose proof (run_quiet later _ tid t Hok Hquiet Hreg) as Hkept.
  split; [done|].
  by apply (ok_pending _ (run_ok later _ Hok) tid).
Qed.

Lemma pending_until_own_return_witness :
  let evs := [Invoke (KString "add") []] in
  let t := {| t_transactionID := "UI:0"; promise := 0 |} in
  let later := [Invoke (KString "slow") [];
                Receive (return_value_message "UI:1" JUndefined);
                Receive (call_message "Plugin:0" "missing" [])] in
  transactions (run evs (collab ∅ FigmaPluginUI)) !! "UI:0" = Some t
  /\ Forall (quiet "UI:0") later
  /\ transactions (run later (run evs (collab ∅ FigmaPluginUI))) !! "UI:0" = Some t
  /\ promises (run later (run evs (collab ∅ FigmaPluginUI))) !! promise t
     = Some Pending.
Proof.
  assert (Hq : Forall (quiet "UI:0")
                 [Invoke (KString "slow") [];
                  Receive (return_value_message "UI:1" JUndefined);
                  Receive (call_message "Plugin:0" "missing" [])]).
  { repeat constructor; simpl; intros [? ?]; discriminate. }
  split; [reflexivity|]. split; [exact Hq|].
  apply (pending_until_own_return ∅ FigmaPluginUI [Invoke (KString "add") []]
           "UI:0" {| t_transactionID := "UI:0"; promise := 0 |} _ eq_refl Hq).
Defined.

(** ** Returns in any order *)





(** ** Failures, end to end *)

Lemma error_return_after_quiet evs e1 tid t reason :
  register_ok e1 ->
  transactions e1 !! tid = Some t ->
  ~ is_nullish reason ->
  Forall (quiet tid) evs ->
  exists e2,
    handler (return_ex_message tid reason) (run evs e1) = (e2, None)
    /\ promises e2 !! promise t = Some (Rejected reason)
    /\ forall later, promises (run later e2) !! promise t = Some (Rejected reason).
Proof.
  intros Hok Hreg Hreason Hquiet.
  pose proof (run_quiet evs e1 tid t Hok Hquiet Hreg) as Hlater.
  destruct (return_settles (return_ex_message tid reason) t (run evs e1))
    as (Hh & Hp & _); [by apply run_ok|done|done|].
  assert (Hrej : promises (handle_return (return_ex_message tid reason) t
                             (run evs e1)) !! promise t
                 = Some (Rejected reason)).
  { rewrite Hp. simpl. by destruct reason. }
  eexists. split_and!; [exact Hh|exact Hrej|].
  intros later. by apply run_keeps.
Qed.

Lemma ex_to_send_nullish fault : is_nullish (ex_to_send fault) -> is_nullish fault.
Proof. by destruct fault. Qed.

(** When a method, under a name other than [cleanupProxy], throws a value
    that is neither [undefined] nor [null], the promise of the call through
    the proxy is rejected, with the message string of the fault if the fault
    is an [Error] and with the fault itself otherwise, and it keeps that
    state. *)
Theorem thrown_fault_rejects_caller ms opts evs callee f impl argv fault :
  f <> "cleanupProxy" ->
  methods callee !! f = Some (PFunction impl) ->
  impl argv = Throws fault ->
  ~ is_nullish fault ->
  failed_round_trip (run evs (collab ms opts)) callee f argv (ex_to_send fault).
Proof.
  intros Hf Hin Himpl Hfault. set (caller := run evs (collab ms opts)).
  assert (Hok : register_ok caller) by apply run_ok, collab_ok.
  destruct (remote_call_spec f argv caller) as (Hp & Hsent & Hreg).
  exists (length (promises caller)), (mint caller),
    (remote_call f argv caller).1,
    (handle_call (call_message (mint caller) f argv) callee).
  split_and!.
  - by apply proxy_invoke_remote.
  - done.
  - done.
  - by apply handler_call.
  - rewrite handle_call_known by (simpl; by rewrite Hin). simpl.
    by rewrite (invoke_function _ _ impl), Himpl.
  - intros between Hquiet.
    apply (error_return_after_quiet between _ (mint caller)
             {| t_transactionID := mint caller;
                promise := length (promises caller) |});
      [by apply remote_call_ok|done| |done].
    intros Hn. by apply Hfault, ex_to_send_nullish.
Qed.

Lemma thrown_fault_rejects_caller_witness :
  "boom" <> "cleanupProxy"
  /\ methods throwing !! "boom" = Some (PFunction (fun _ => Throws (JError "kaput")))
  /\ ~ is_nullish (JError "kaput")
  /\ failed_round_trip (run [] (collab ∅ FigmaPluginUI)) throwing "boom" []
       (JString "kaput").
Proof.
  split; [discriminate|]. split; [reflexivity|]. split; [by intros []|].
  apply (thrown_fault_rejects_caller ∅ FigmaPluginUI [] throwing "boom"
           (fun _ => Throws (JError "kaput")) [] (JError "kaput"));
    [discriminate|reflexivity|reflexivity|by intros []].
Defined.

(** When a method, under a name other than [cleanupProxy], returns a
    promise that later rejects with a reason that is neither [undefined]
    nor [null], nothing is sent before the rejection, one return envelope is
    sent at the rejection, and the promise of the call through the proxy is
    rejected with the reason's message string if the reason is an [Error]
    and with the reason itself otherwise. *)
Theorem rejection_rejects_caller ms opts evs callee f impl argv fault :
  f <> "cleanupProxy" ->
  methods callee !! f = Some (PFunction impl) ->
  impl argv = ReturnsPromise (Rejects fault) ->
  ~ is_nullish fault ->
  rejected_round_trip (run evs (collab ms opts)) callee f argv fault
    (ex_to_send fault).
Proof.
  intros Hf Hin Himpl Hfault. set (caller := run evs (collab ms opts)).
  assert (Hok : register_ok caller) by apply run_ok, collab_ok.
  destruct (remote_call_spec f argv caller) as (Hp & Hsent & Hreg).
  set (call := call_message (mint caller) f argv).
  assert (Hcallee : handle_call call callee
    = with_reactions (fun rs => rs ++ [(mint caller, Rejects fault)]) callee).
  { rewrite handle_call_known by (simpl; by rewrite Hin). simpl.
    by rewrite (invoke_function _ _ impl), Himpl. }
  exists (length (promises caller)), (mint caller),
    (remote_call f argv caller).1, (handle_call call callee).
  split_and!.
  - by apply proxy_invoke_remote.
  - done.
  - done.
  - by apply handler_call.
  - by rewrite Hcallee.
  - by rewrite Hcallee.
  - rewrite (run_reaction_last (reactions callee) (mint caller) (Rejects fault))
      by (by rewrite Hcallee).
    by rewrite Hcallee.
  - intros between Hquiet.
    apply (error_return_after_quiet between _ (mint caller)
             {| t_transactionID := mint caller;
                promise := length (promises caller) |});
      [by apply remote_call_ok|done| |done].
    intros Hn. by apply Hfault, ex_to_send_nullish.
Qed.

Lemma rejection_rejects_caller_witness :
  "refuse" <> "cleanupProxy"
  /\ methods throwing !! "refuse"
     = Some (PFunction (fun _ => ReturnsPromise (Rejects (JNumber 42))))
  /\ ~ is_nullish (JNumber 42)
  /\ rejected_round_trip (run [] (collab ∅ FigmaPluginUI)) throwing "refuse" []
       (JNumber 42) (JNumber 42).
Proof.
  split; [discriminate|]. split; [reflexivity|]. split; [by intros []|].
  apply (rejection_rejects_caller ∅ FigmaPluginUI [] throwing "refuse"
           (fun _ => ReturnsPromise (Rejects (JNumber 42))) [] (JNumber 42));
    [discriminate|reflexivity|reflexivity|by intros []].
Defined.

(** When the other side has no property of the name called (and the name
    is not [cleanupProxy]), the call through the proxy is answered twice:
    the first return rejects the caller's promise with the unknown-method
    error and removes the transaction, and the second then makes the
    caller's handler raise the unknown-transaction fault, leaving the
    caller's engine as it was. *)
Theorem unknown_method_rejects_then_faults ms opts evs callee f argv :
  f <> "cleanupProxy" ->
  methods callee !! f = None ->
  unknown_round_trip (run evs (collab ms opts)) callee f argv.
Proof.
  intros Hf Hnone. set (caller := run evs (collab ms opts)).
  assert (Hok : register_ok caller) by apply run_ok, collab_ok.
  destruct (remote_call_spec f argv caller) as (Hp & Hsent & Hreg).
  set (call := call_message (mint caller) f argv).
  destruct (unknown_method_two_returns call callee Hnone) as (text & Htwo).
  set (t := {| t_transactionID := mint caller;
               promise := length (promises caller) |}) in *.
  destruct (return_settles
              (return_ex_message (mint caller) (unknown_method_error f)) t
              (remote_call f argv caller).1)
    as (Hh & Hset & Htx); [by apply remote_call_ok|done|done|].
  exists (length (promises caller)), (mint caller), text,
    (remote_call f argv caller).1, (handle_call call callee),
    (handle_return (return_ex_message (mint caller) (unknown_method_error f)) t
       (remote_call f argv caller).1).
  split_and!.
  - by apply proxy_invoke_remote.
  - done.
  - by apply handler_call.
  - exact Htwo.
  - exact Hh.
  - exact Hset.
  - apply handler_return_unknown; [done|].
    rewrite Htx. apply lookup_delete_eq.
Qed.

Lemma unknown_method_rejects_then_faults_witness :
  "missing" <> "cleanupProxy"
  /\ methods sideA !! "missing" = None
  /\ unknown_round_trip (run [] (collab ∅ FigmaPluginUI)) sideA "missing" [].
Proof.
  split; [discriminate|]. split; [reflexivity|].
  apply (unknown_method_rejects_then_faults ∅ FigmaPluginUI [] sideA "missing" []);
    [discriminate|reflexivity].
Defined.

(** ** The proxy at access time *)

(** A use of the proxy throws only when the key is a symbol or when the
    key is [cleanupProxy] and the adapter returned no cleanup function; in
    both cases nothing has been registered or sent: the engine is exactly
    as before. Under every other key the use returns a new promise. *)
Theorem proxy_throws_only_at_access prop argv e :
  (forall fault,
     (proxy_invoke prop argv e).2 = Thrown fault ->
     (proxy_invoke prop argv e).1 = e
     /\ ((exists description, prop = KSymbol description)
         \/ (prop = KString "cleanupProxy" /\ cleanupFunction e = None)))
  /\ (forall f, prop = KString f -> f <> "cleanupProxy" ->
        (proxy_invoke prop argv e).2 = ReturnedPromise (length (promises e))
        /\ promises (proxy_invoke prop argv e).1 = promises e ++ [Pending]).
Proof.
  split.
  - intros fault. unfold proxy_invoke, proxy_get.
    destruct prop as [f|d]; simpl; [|intros _; split; [done|left; by eexists]].
    destruct (decide (f = "cleanupProxy")) as [->|]; simpl; [|done].
    destruct (cleanupFunction e); simpl; [done|].
    intros _. split; [done|by right].
  - intros f -> Hf. by rewrite proxy_invoke_remote.
Qed.

Lemma proxy_throws_only_at_access_witness :
  (proxy_invoke (KSymbol "tag") [] sideB).2
  = Thrown (JError ("Symbol property " +:+ dquote +:+ "Symbol(tag)" +:+ dquote
                      +:+ " is not supported."))
  /\ (proxy_invoke (KSymbol "tag") [] sideB).1 = sideB
  /\ (proxy_invoke (KString "add") [] sideB).2 = ReturnedPromise 0.
Proof.
  split; [reflexivity|].
  destruct (proxy_throws_only_at_access (KSymbol "tag") [] sideB) as [Hthrow _].
  destruct (proxy_throws_only_at_access (KString "add") [] sideB) as [_ Hcall].
  split.
  - apply (Hthrow _ eq_refl).
  - apply (Hcall "add" eq_refl). discriminate.
Defined.

(** ** After the cleanup *)

Lemma step_deaf e ev cleanup :
  cleanupFunction e = Some cleanup ->
  (forall slot, cleanup slot = false) ->
  listening e = false ->
  listening (step e ev) = false
  /\ (forall p s, promises e !! p = Some s -> promises (step e ev) !! p = Some s)
  /\ (forall tid t, transactions e !! tid = Some t ->
                    is_Some (transactions (step e ev) !! tid)).
Proof.
  intros Hc Hoff Hl. destruct ev as [[f|d] argv|message|k]; simpl.
  - unfold proxy_invoke, proxy_get. simpl.
    destruct (decide (f = "cleanupProxy")); simpl.
    { rewrite Hc. simpl. split_and!; [by rewrite Hoff|done|by eauto]. }
    split_and!; [done| |].
    + intros p s Hp. by apply lookup_app_l_Some.
    + intros tid t Ht. destruct (decide (mint e = tid)) as [<-|Hne].
      * rewrite lookup_insert_eq. by eexists.
      * rewrite lookup_insert_ne by done. by eexists.
  - split_and!; [done|done|by eauto].
  - rewrite Hl. split_and!; [done|done|by eauto].
  - destruct (run_reaction_frame k e) as (-> & -> & _ & _ & _ & _ & -> & _).
    split_and!; [done|done|by eauto].
Qed.

Lemma run_deaf evs e cleanup :
  cleanupFunction e = Some cleanup ->
  (forall slot, cleanup slot = false) ->
  listening e = false ->
  listening (run evs e) = false
  /\ (forall p s, promises e !! p = Some s -> promises (run evs e) !! p = Some s)
  /\ (forall tid t, transactions e !! tid = Some t ->
                    is_Some (transactions (run evs e) !! tid)).
Proof.
  revert e. induction evs as [|ev evs IH]; intros e Hc Hoff Hl.
  { split_and!; [done|done|by eauto]. }
  destruct (step_deaf e ev cleanup Hc Hoff Hl) as (Hl' & Hp' & Ht').
  destruct (IH (step e ev)) as (Hl'' & Hp'' & Ht'');
    [by rewrite step_cleanupFunction|done|done|].
  simpl. split_and!; [done|by eauto|].
  intros tid t Ht. destruct (Ht' tid t Ht) as [t' Ht'2]. by eapply Ht''.
Qed.

(** Once [proxy.cleanupProxy()] has run a cleanup function that empties
    the adapter's handler slot (as both adapters of [figma.ts] do), the
    engine hears nothing any more: through every later event the handler
    stays unregistered, every promise keeps the state it had, so a pending
    one stays pending for good, and every registered transaction stays in
    the register. *)
Theorem cleanup_stops_settling ms opts evs cleanup later :
  (toHandleMessage opts false).2 = Some cleanup ->
  (forall slot, cleanup slot = false) ->
  let e := (useCollab_unmount (run evs (collab ms opts))).1 in
  listening (run later e) = false
  /\ (forall p s, promises e !! p = Some s ->
                  promises (run later e) !! p = Some s)
  /\ (forall tid t, transactions e !! tid = Some t ->
                    is_Some (transactions (run later e) !! tid)).
Proof.
  intros Hsome Hoff e.
  assert (Hc : cleanupFunction (run evs (collab ms opts)) = Some cleanup)
    by (by rewrite cleanupFunction_of_run).
  destruct (invoke_cleanup_defined _ cleanup Hc) as [_ Hinvoke].
  unfold useCollab_unmount in e. subst e. rewrite Hinvoke. cbn [fst].
  apply (run_deaf later _ cleanup); simpl; [done|done|apply Hoff].
Qed.

Lemma cleanup_stops_settling_witness :
  let evs := [Invoke (KString "add") [JNumber 2; JNumber 3]] in
  let later := [Receive (return_value_message "UI:0" (JNumber 5))] in
  let e := (useCollab_unmount (run evs (collab ∅ FigmaPluginUI))).1 in
  (toHandleMessage FigmaPluginUI false).2 = Some (fun _ => false)
  /\ promises e !! 0 = Some Pending
  /\ promises (run later e) !! 0 = Some Pending.
Proof.
  split; [reflexivity|]. split; [reflexivity|].
  destruct (cleanup_stops_settling ∅ FigmaPluginUI
              [Invoke (KString "add") [JNumber 2; JNumber 3]]
              (fun _ => false)
              [Receive (return_value_message "UI:0" (JNumber 5))]
              eq_refl (fun _ => eq_refl)) as (_ & Hp & _).
  apply Hp. reflexivity.
Defined.

(** ** Two engines: the protocol raises no fault of its own *)

Lemma submseteq_NoDup (k l : list string) : k ⊆+ l -> NoDup l -> NoDup k.
Proof.
  intros [k' Hk]%submseteq_Permutation. rewrite Hk. by intros [? _]%NoDup_app.
Qed.

Lemma call_ids_app l k : call_ids (l ++ k) = call_ids l ++ call_ids k.
Proof. unfold call_ids. by rewrite omap_app. Qed.

Lemma return_ids_app l k : return_ids (l ++ k) = return_ids l ++ return_ids k.
Proof. unfold return_ids. by rewrite omap_app. Qed.

Lemma call_ids_delete l k m :
  l !! k = Some m -> call_ids l ≡ₚ call_ids [m] ++ call_ids (delete k l).
Proof.
  intros Hk. rewrite <- call_ids_app. unfold call_ids. f_equiv.
  by apply delete_Permutation.
Qed.

Lemma return_ids_delete l k m :
  l !! k = Some m -> return_ids l ≡ₚ return_ids [m] ++ return_ids (delete k l).
Proof.
  intros Hk. rewrite <- return_ids_app. unfold return_ids. f_equiv.
  by apply delete_Permutation.
Qed.

Lemma ids_of_call m :
  type m = "call" -> call_ids [m] = [transactionID m] /\ return_ids [m] = [].
Proof.
  intros Hty. unfold call_ids, return_ids. simpl. by rewrite !Hty.
Qed.

Lemma ids_of_return m :
  type m = "return" -> call_ids [m] = [] /\ return_ids [m] = [transactionID m].
Proof.
  intros Hty. unfold call_ids, return_ids. simpl. by rewrite !Hty.
Qed.

Lemma fresh_sent_app e e' new : sent e' = sent e ++ new -> fresh_sent e e' = new.
Proof. intros Hs. unfold fresh_sent. rewrite Hs. apply drop_app_length. Qed.

Lemma fresh_sent_same e e' : sent e' = sent e -> fresh_sent e e' = [].
Proof. intros Hs. unfold fresh_sent. rewrite Hs. apply drop_all. Qed.

Lemma mint_fresh e : register_ok e -> transactions e !! mint e = None.
Proof.
  intros Hok. destruct (transactions e !! mint e) as [t|] eqn:Ht; [|done].
  destruct (ok_below e Hok _ _ Ht) as (i & Hi & Heq).
  rewrite mint_label in Heq. apply label_inj in Heq. lia.
Qed.

Lemma link_transfer X Y f g X' Y' f' g' :
  link X Y f g ->
  awaited f' g' Y' ⊆+ awaited f g Y ->
  (forall tid, tid ∈ awaited f' g' Y' ->
               is_Some (transactions X !! tid) ->
               is_Some (transactions X' !! tid)) ->
  methods Y' = methods Y ->
  (forall m, m ∈ f' -> m ∈ f \/ type m = "return") ->
  link X' Y' f' g'.
Proof.
  intros [Hnd Hreg Hknown Htyped] Hsub Htx Hms Hout. split.
  - by eapply submseteq_NoDup.
  - intros tid Hin. apply Htx; [done|]. eapply Hreg, elem_of_submseteq; done.
  - intros m [Hm | Hret]%Hout Hty; [rewrite Hms; by apply Hknown|].
    rewrite Hret in Hty. discriminate Hty.
  - intros m [Hm | Hret]%Hout; [by apply Htyped|by right].
Qed.

Lemma link_same X Y f g X' Y' :
  transactions X' = transactions X ->
  reactions Y' = reactions Y ->
  methods Y' = methods Y ->
  link X Y f g -> link X' Y' f g.
Proof.
  intros Htx Hrs Hms Hl.
  apply (link_transfer X Y f g); [done| | |done|by left].
  - unfold awaited. by rewrite Hrs.
  - intros tid _. by rewrite Htx.
Qed.

Lemma use_ok X Y f g prop argv :
  register_ok X ->
  link X Y f g -> link Y X g f ->
  match prop with
  | KString name => name = "cleanupProxy" \/ is_Some (methods Y !! name)
  | KSymbol _ => True
  end ->
  let X' := step X (Invoke prop argv) in
  link X' Y (f ++ fresh_sent X X') g /\ link Y X' g (f ++ fresh_sent X X').
Proof.
  intros Hok Hxy Hyx Hknown. simpl.
  destruct prop as [name|d]; unfold proxy_invoke, proxy_get; simpl.
  2:{ rewrite fresh_sent_same, app_nil_r by done. done. }
  destruct (decide (name = "cleanupProxy")) as [->|Hname]; simpl.
  { destruct (cleanupFunction X); simpl;
      rewrite fresh_sent_same, app_nil_r by done;
      split; by eapply link_same; [..|done]. }
  destruct Hknown as [?|Hknown]; [done|].
  rewrite (fresh_sent_app X _ [call_message (mint X) name argv]) by done.
  destruct (ids_of_call (call_message (mint X) name argv) eq_refl) as [Hc Hr].
  split.
  - destruct Hxy as [Hnd Hreg Hkn Hty].
    assert (Hfresh : mint X ∉ awaited f g Y).
    { intros [t Ht]%Hreg. by rewrite mint_fresh in Ht. }
    assert (Hperm : awaited (f ++ [call_message (mint X) name argv]) g Y
                    ≡ₚ mint X :: awaited f g Y).
    { unfold awaited. rewrite call_ids_app, Hc. simpl. solve_Permutation. }
    split; simpl.
    + rewrite Hperm. by apply NoDup_cons.
    + intros tid. rewrite Hperm. intros [->|Hin]%elem_of_cons.
      * rewrite lookup_insert_eq. by eexists.
      * apply lookup_insert_is_Some'. right. by apply Hreg.
    + intros m [Hm | ->%list_elem_of_singleton]%elem_of_app Htym;
        [by apply Hkn|done].
    + intros m [Hm | ->%list_elem_of_singleton]%elem_of_app;
        [by apply Hty|by left].
  - apply (link_transfer Y X g f); [done| |done|done|].
    + unfold awaited. simpl. rewrite return_ids_app, Hr, app_nil_r. done.
    + by left.
Qed.

Lemma reaction_ids_delete (rs : list (string * PromiseFate)) k tid fate :
  rs !! k = Some (tid, fate) -> rs.*1 ≡ₚ tid :: (delete k rs).*1.
Proof.
  intros Hk. change (tid :: (delete k rs).*1) with (((tid, fate) :: delete k rs).*1).
  f_equiv. by apply delete_Permutation.
Qed.

Lemma settle_ok X Y f g k :
  link X Y f g -> link Y X g f ->
  let X' := step X (Settled k) in
  link X' Y (f ++ fresh_sent X X') g /\ link Y X' g (f ++ fresh_sent X X').
Proof.
  intros Hxy Hyx. simpl.
  assert (Hidle : link X Y (f ++ fresh_sent X X) g
                  /\ link Y X g (f ++ fresh_sent X X)).
  { by rewrite fresh_sent_same, app_nil_r. }
  assert (Hsend : forall tid fate m,
    reactions X !! k = Some (tid, fate) ->
    type m = "return" -> transactionID m = tid ->
    let X' := toSendMessage m (with_reactions (delete k) X) in
    link X' Y (f ++ fresh_sent X X') g /\ link Y X' g (f ++ fresh_sent X X')).
  { intros tid fate m Hk Hty Htid X'.
    rewrite (fresh_sent_app X X' [m]) by done.
    destruct (ids_of_return m Hty) as [Hc Hr]. split.
    - apply (link_transfer X Y f g); [done| |done|done|].
      + unfold awaited. rewrite call_ids_app, Hc, app_nil_r. done.
      + intros m' [Hm | ->%list_elem_of_singleton]%elem_of_app; [by left|by right].
    - apply (link_transfer Y X g f); [done| |done|done|by left].
      unfold awaited. simpl. rewrite return_ids_app, Hr, Htid.
      rewrite (reaction_ids_delete (reactions X) k tid fate Hk).
      solve_submseteq. }
  unfold run_reaction.
  destruct (reactions X !! k) as [[tid [v|reason|]]|] eqn:Hk; try done.
  - by apply (Hsend tid (Fulfills v)).
  - by apply (Hsend tid (Rejects reason)).
Qed.

Lemma deliver_ok X Y f g k m :
  register_ok X ->
  link X Y f g -> link Y X g f ->
  g !! k = Some m ->
  let X' := step X (Receive m) in
  link X' Y (f ++ fresh_sent X X') (delete k g)
  /\ link Y X' (delete k g) (f ++ fresh_sent X X')
  /\ raised X (Receive m) = [].
Proof.
  intros Hok Hxy Hyx Hk. simpl.
  pose proof (call_ids_delete g k m Hk) as Hcalls.
  pose proof (return_ids_delete g k m Hk) as Hrets.
  assert (Hm : m ∈ g) by (eapply list_elem_of_lookup_2; done).
  assert (Hsub : forall m', m' ∈ delete k g -> m' ∈ g \/ type m' = "return")
    by (intros m' Hin%list_elem_of_delete_inv; by left).
  destruct (listening X) eqn:Hl.
  2:{ rewrite fresh_sent_same, app_nil_r by done. split_and!; [| |done].
      - apply (link_transfer X Y f g); [done| |done|done|by left].
        unfold awaited. rewrite Hrets. solve_submseteq.
      - apply (link_transfer Y X g f); [done| |done|done|done].
        unfold awaited. rewrite Hcalls. solve_submseteq. }
  destruct (link_typed Y X g f Hyx m Hm) as [Hty|Hty].
  - (* a call, for a property this side has *)
    pose proof (link_known Y X g f Hyx m Hm Hty) as Hin.
    destruct (ids_of_call m Hty) as [Hc Hr]. rewrite Hc in Hcalls.
    rewrite Hr in Hrets. simpl in Hrets.
    rewrite (handler_call m X Hty). cbn [fst snd].
    assert (Hframe := handle_call_frame m X).
    destruct Hframe as (Htx & _ & _ & _ & Hms & _).
    assert (Hcases :
      (exists r, type r = "return" /\ transactionID r = transactionID m
                 /\ sent (handle_call m X) = sent X ++ [r]
                 /\ reactions (handle_call m X) = reactions X)
      \/ (exists fate, sent (handle_call m X) = sent X
                       /\ reactions (handle_call m X)
                          = reactions X ++ [(transactionID m, fate)])).
    { rewrite (handle_call_known m X Hin).
      destruct (invoke (methods X) (func m) (args m)) as [v|fate|thrown]; simpl.
      - left. by exists (return_value_message (transactionID m) v).
      - right. by exists fate.
      - left. by exists (return_ex_message (transactionID m) (ex_to_send thrown)). }
    split_and!; [| |done].
    + apply (link_transfer X Y f g); [done| |by rewrite Htx|done|].
      * unfold awaited. rewrite Hrets.
        destruct Hcases as [(r & Hr1 & Hr2 & Hs & _) | (fate & Hs & _)].
        -- rewrite (fresh_sent_app _ _ [r] Hs), call_ids_app.
           destruct (ids_of_return r Hr1) as [-> _]. by rewrite app_nil_r.
        -- by rewrite (fresh_sent_same _ _ Hs), app_nil_r.
      * destruct Hcases as [(r & Hr1 & Hr2 & Hs & _) | (fate & Hs & _)].
        -- rewrite (fresh_sent_app _ _ [r] Hs).
           intros m' [? | ->%list_elem_of_singleton]%elem_of_app;
             [by left|by right].
        -- rewrite (fresh_sent_same _ _ Hs), app_nil_r. by left.
    + apply (link_transfer Y X g f); [done| |done|done|done].
      unfold awaited. rewrite Hcalls.
      destruct Hcases as [(r & Hr1 & Hr2 & Hs & Hrs) | (fate & Hs & Hrs)].
      * rewrite (fresh_sent_app _ _ [r] Hs), return_ids_app, Hrs.
        destruct (ids_of_return r Hr1) as [_ ->]. rewrite Hr2.
        solve_submseteq.
      * rewrite (fresh_sent_same _ _ Hs), app_nil_r, Hrs, fmap_app. simpl.
        solve_submseteq.
  - (* a return, for a transaction that is registered *)
    destruct (ids_of_return m Hty) as [Hc Hr]. rewrite Hc in Hcalls.
    rewrite Hr in Hrets. simpl in Hcalls.
    assert (Hawait : awaited f g Y
                     ≡ₚ transactionID m :: awaited f (delete k g) Y).
    { unfold awaited. rewrite Hrets. solve_Permutation. }
    destruct (link_registered X Y f g Hxy (transactionID m)) as [t Ht].
    { rewrite Hawait. apply list_elem_of_here. }
    destruct (return_settles m t X Hok Hty Ht) as (Hh & _ & Htx).
    rewrite Hh. cbn [fst snd].
    assert (Hs : sent (handle_return m t X) = sent X)
      by (unfold handle_return; by destruct (ex m)).
    assert (Hrs : reactions (handle_return m t X) = reactions X)
      by (unfold handle_return; by destruct (ex m)).
    assert (Hms : methods (handle_return m t X) = methods X)
      by (unfold handle_return; by destruct (ex m)).
    rewrite (fresh_sent_same _ _ Hs), app_nil_r.
    pose proof (link_nodup X Y f g Hxy) as Hnd. rewrite Hawait in Hnd.
    apply NoDup_cons in Hnd as [Hnotin _].
    split_and!; [| |done].
    + apply (link_transfer X Y f g); [done| | |done|by left].
      * rewrite Hawait. by apply submseteq_cons.
      * intros tid Hin Hsome. rewrite Htx, lookup_delete_ne; [done|].
        by intros <-.
    + apply (link_transfer Y X g f); [done| |done|done|done].
      unfold awaited. by rewrite Hcalls, Hrs.
Qed.

Lemma step_methods e ev : methods (step e ev) = methods e.
Proof.
  destruct ev as [prop argv|message|k]; simpl.
  - unfold proxy_invoke, proxy_get. destruct prop as [f|d]; simpl; [|done].
    destruct (decide (f = "cleanupProxy")); simpl; [|done].
    by destruct (cleanupFunction e).
  - destruct (listening e); [|done]. unfold handler.
    destruct (decide (type message = "call")); simpl.
    { apply handle_call_frame. }
    destruct (decide (type message = "return")); simpl; [|done].
    destruct (transactions e !! transactionID message); simpl; [|done].
    unfold handle_return. by destruct (ex message).
  - apply run_reaction_frame.
Qed.

Lemma connect_ok uiMethods pluginMethods :
  system_ok (connect uiMethods pluginMethods).
Proof.
  split; simpl; try apply collab_ok; try done;
    (split; simpl; [apply NoDup_nil_2| | |]; intros ? Hin;
     by apply not_elem_of_nil in Hin).
Qed.

Lemma swap_ok sys : system_ok sys -> system_ok (swap sys).
Proof. intros [H1 H2 H3 H4 H5]. by split. Qed.

Lemma move_ui_ok sys mv :
  system_ok sys ->
  names_known (methods (ui sys)) (methods (plugin sys)) (UI, mv) ->
  system_ok (move_ui mv sys).
Proof.
  intros [Hu Hp Hup Hpu Hf] Hknown. destruct mv as [prop argv|k|k];
    unfold move_ui.
  - destruct (use_ok (ui sys) (plugin sys) (to_plugin sys) (to_ui sys) prop argv)
      as [H1 H2]; [done|done|done|by destruct prop|].
    split; cbn [ui plugin to_plugin to_ui faults at_ui raised];
      [by apply step_ok|done|done|done|by rewrite app_nil_r].
  - destruct (to_ui sys !! k) as [m|] eqn:Hk; [|by split].
    destruct (deliver_ok (ui sys) (plugin sys) (to_plugin sys) (to_ui sys) k m)
      as (H1 & H2 & H3); [done|done|done|done|].
    split; cbn [ui plugin to_plugin to_ui faults at_ui];
      [by apply step_ok|done|done|done|].
    rewrite H3. by rewrite app_nil_r.
  - destruct (settle_ok (ui sys) (plugin sys) (to_plugin sys) (to_ui sys) k)
      as [H1 H2]; [done|done|].
    split; cbn [ui plugin to_plugin to_ui faults at_ui raised];
      [by apply step_ok|done|done|done|by rewrite app_nil_r].
Qed.

Lemma move_ui_methods sys mv :
  methods (ui (move_ui mv sys)) = methods (ui sys)
  /\ methods (plugin (move_ui mv sys)) = methods (plugin sys).
Proof.
  destruct mv as [prop argv|k|k]; simpl.
  - split; [apply (step_methods _ (Invoke prop argv))|done].
  - destruct (to_ui sys !! k) as [m|]; [|done].
    split; [apply (step_methods _ (Receive m))|done].
  - split; [apply (step_methods _ (Settled k))|done].
Qed.

Lemma move_ok sys a :
  system_ok sys ->
  names_known (methods (ui sys)) (methods (plugin sys)) a ->
  system_ok (move a sys)
  /\ methods (ui (move a sys)) = methods (ui sys)
  /\ methods (plugin (move a sys)) = methods (plugin sys).
Proof.
  intros Hok Hknown. destruct a as [[|] mv]; unfold move; simpl.
  - split; [by apply move_ui_ok|apply move_ui_methods].
  - destruct (move_ui_methods (swap sys) mv) as [Hm1 Hm2].
    split; [|by split].
    apply swap_ok, move_ui_ok; [by apply swap_ok|].
    destruct mv as [[f|d] argv|k|k]; done.
Qed.

Lemma play_ok acts sys :
  system_ok sys ->
  Forall (names_known (methods (ui sys)) (methods (plugin sys))) acts ->
  system_ok (play acts sys).
Proof.
  revert sys. induction acts as [|a acts IH]; intros sys Hok Hknown; [done|].
  apply Forall_cons in Hknown as [Ha Hacts].
  destruct (move_ok sys a Hok Ha) as (Hok' & Hm1 & Hm2).
  simpl. apply IH; [done|]. by rewrite Hm1, Hm2.
Qed.

(** Two engines joined by the adapters of [figma.ts], from their start:
    as long as each side calls only methods the other side's table has (or
    uses [cleanupProxy]), then whatever the order in which calls are made,
    envelopes are delivered and method promises settle, no handler ever
    raises a fault, every return envelope still travelling answers a
    transaction that is registered where it is going, and no two calls
    under way share an id. *)
Theorem no_protocol_fault uiMethods pluginMethods acts :
  Forall (names_known uiMethods pluginMethods) acts ->
  let sys := play acts (connect uiMethods pluginMethods) in
  faults sys = []
  /\ (forall m, m ∈ to_ui sys -> type m = "return" ->
                is_Some (transactions (ui sys) !! transactionID m))
  /\ (forall m, m ∈ to_plugin sys -> type m = "return" ->
                is_Some (transactions (plugin sys) !! transactionID m))
  /\ NoDup (awaited (to_plugin sys) (to_ui sys) (plugin sys))
  /\ NoDup (awaited (to_ui sys) (to_plugin sys) (ui sys)).
Proof.
  intros Hknown sys.
  destruct (play_ok acts (connect uiMethods pluginMethods))
    as [Hu Hp Hup Hpu Hf]; [apply connect_ok|done|].
  fold sys in Hu, Hp, Hup, Hpu, Hf.
  assert (Hret : forall X Y f g, link X Y f g ->
            forall m, m ∈ g -> type m = "return" ->
                      is_Some (transactions X !! transactionID m)).
  { intros X Y f g Hl m Hm Hty. apply (link_registered X Y f g Hl).
    unfold awaited. rewrite !elem_of_app. right; right.
    apply list_elem_of_omap. exists m. by rewrite decide_True. }
  split_and!; [done|by eapply Hret|by eapply Hret|apply Hup|apply Hpu].
Qed.

Lemma no_protocol_fault_witness :
  let acts := [(UI, Use (KString "add") [JNumber 2; JNumber 3]);
               (UI, Use (KString "slow") []);
               (Plugin, Deliver 1);
               (Plugin, Deliver 0);
               (UI, Deliver 0);
               (Plugin, Settle 0);
               (UI, Deliver 0)] in
  Forall (names_known ∅ {[ "add" := add; "slow" := slow ]}) acts
  /\ faults (play acts (connect ∅ {[ "add" := add; "slow" := slow ]})) = []
  /\ promises (ui (play acts (connect ∅ {[ "add" := add; "slow" := slow ]})))
     = [Fulfilled (JNumber 5); Fulfilled (JString "done")].
Proof.
  assert (Hknown : Forall (names_known ∅ {[ "add" := add; "slow" := slow ]})
            [(UI, Use (KString "add") [JNumber 2; JNumber 3]);
             (UI, Use (KString "slow") []);
             (Plugin, Deliver 1);
             (Plugin, Deliver 0);
             (UI, Deliver 0);
             (Plugin, Settle 0);
             (UI, Deliver 0)]).
  { repeat first [apply List.Forall_nil | apply List.Forall_cons];
      simpl; try done; right; by eexists. }
  split; [exact Hknown|]. split; [|reflexivity].
  apply (no_protocol_fault ∅ {[ "add" := add; "slow" := slow ]} _ Hknown).
Defined.

(** ** Ids of engines with different names *)

Lemma pretty_N_go_no_colon x s :
  has_colon s = false -> has_colon (pretty_N_go x s) = false.
Proof.
  revert s. induction (N.lt_wf_0 x) as [x _ IH]; intros s Hs.
  destruct (decide (x = 0%N)) as [->|Hx]; [by rewrite pretty_N_go_0|].
  rewrite pretty_N_go_step by lia. apply IH.
  - apply N.div_lt; lia.
  - simpl. rewrite Hs. unfold pretty_N_char. by repeat case_match.
Qed.

Lemma pretty_N_no_colon (n : N) : has_colon (pretty n) = false.
Proof.
  unfold pretty, pretty_N. destruct (decide (n = 0%N)); [done|].
  by apply pretty_N_go_no_colon.
Qed.

Lemma has_colon_after_colon a b : has_colon (a +:+ ":" +:+ b) = true.
Proof.
  induction a as [|c a IH]; simpl; [done|]. rewrite IH. apply orb_true_r.
Qed.

Lemma split_at_last_colon n1 n2 d1 d2 :
  has_colon d1 = false -> has_colon d2 = false ->
  n1 +:+ ":" +:+ d1 = n2 +:+ ":" +:+ d2 ->
  n1 = n2 /\ d1 = d2.
Proof.
  intros H1 H2. revert n2. induction n1 as [|c n1 IH]; intros [|c' n2] Heq.
  - injection Heq as Hd. split; [done|exact Hd].
  - injection Heq as _ Hd.
    assert (Hd1 : d1 = n2 +:+ ":" +:+ d2) by exact Hd. subst d1.
    discriminate (eq_trans (eq_sym (has_colon_after_colon n2 d2)) H1).
  - injection Heq as _ Hd.
    assert (Hd2 : d2 = n1 +:+ ":" +:+ d1) by (symmetry; exact Hd). subst d2.
    discriminate (eq_trans (eq_sym (has_colon_after_colon n1 d1)) H2).
  - injection Heq as -> Hd. destruct (IH n2 Hd) as [-> ->]. done.
Qed.

(** A transaction id determines both the name of the engine that minted
    it and the value of that engine's counter: two engines with different
    names, such as the two sides of a Figma plugin, never mint the same
    id. *)
Theorem label_determines_name_and_index opts1 opts2 n m :
  label opts1 n = label opts2 m -> name opts1 = name opts2 /\ n = m.
Proof.
  unfold label. intros Heq.
  destruct (split_at_last_colon _ _ _ _ (pretty_N_no_colon n)
              (pretty_N_no_colon m) Heq) as [Hname Hidx].
  split; [done|]. by apply (inj pretty).
Qed.

Lemma label_determines_name_and_index_witness :
  label FigmaPluginUI 12 = label FigmaPluginUI 12
  /\ name FigmaPluginUI = name FigmaPluginUI
  /\ forall n m, label FigmaPluginUI n <> label FigmaPlugin m.
Proof.
  split; [reflexivity|].
  split; [apply (label_determines_name_and_index FigmaPluginUI FigmaPluginUI
                   12%N 12%N eq_refl)|].
  intros n m Heq.
  destruct (label_determines_name_and_index FigmaPluginUI FigmaPlugin n m Heq)
    as [Hname _].
  discriminate Hname.
Defined.
